(** * direct2url: the upload orchestrator and the credential brokers

    A shallow embedding of [src/client/components/CloudUploader.tsx] and of
    the server routes that issue signed URLs, with the properties the
    specification states about them. *)

From Stdlib Require Import Ascii String DecimalString DecimalNat DecimalN.
From Stdlib Require Import List ZArith NArith QArith Qround Bool Lia Lqa FinFun.
Import ListNotations.

Close Scope Q_scope.

(** ** JavaScript strings and the primitives the sources call

    A JavaScript string is a sequence of UTF-16 code units.  The regular
    expressions of the sources carry no [u] flag and [length], [substring]
    and [split] count code units, so a string is a [list] of code units. *)

Module JS.

Definition char16 := N.
Definition jsstring := list char16.

(** A source literal: every character of the literals used is ASCII. *)
Definition lit (s : string) : jsstring :=
  map N_of_ascii (list_ascii_of_string s).
Arguments lit s%_string.

Definition in_range (lo hi c : char16) : bool :=
  ((lo <=? c) && (c <=? hi))%N.
Arguments in_range (lo hi c)%_N.

(** Truthiness of a string: the empty string is the only falsy one. *)
Definition truthy (s : jsstring) : bool :=
  match s with [] => false | _ :: _ => true end.

(** [s.substring(0, n)]. *)
Definition substring0 (n : nat) (s : jsstring) : jsstring := firstn n s.

(** [s.replace(/[cls]/g, by)] for a one-character class and a one-character
    replacement. *)
Definition replace_class (cls : char16 -> bool) (by_ : char16)
  (s : jsstring) : jsstring :=
  map (fun c => if cls c then by_ else c) s.

(** [s.replace(/[cls]/g, '')]. *)
Definition remove_class (cls : char16 -> bool) (s : jsstring) : jsstring :=
  filter (fun c => negb (cls c)) s.

(** [s.replace(/c{2,}/g, c)]: every maximal run of two or more [c] becomes
    one [c].  A [c] followed by another [c] is dropped, which leaves the last
    [c] of each run. *)
Fixpoint collapse_runs (c : char16) (s : jsstring) : jsstring :=
  match s with
  | [] => []
  | x :: t =>
      match t with
      | y :: _ =>
          if ((x =? c) && (y =? c))%N then collapse_runs c t
          else x :: collapse_runs c t
      | [] => [x]
      end
  end.

(** [s.trim()]: the code units of WhiteSpace and LineTerminator. *)
Definition is_white (c : char16) : bool :=
  in_range 9 13 c || (c =? 32)%N || (c =? 160)%N || (c =? 5760)%N
  || in_range 8192 8202 c || (c =? 8232)%N || (c =? 8233)%N
  || (c =? 8239)%N || (c =? 8287)%N || (c =? 12288)%N || (c =? 65279)%N.

Fixpoint drop_while (p : char16 -> bool) (s : jsstring) : jsstring :=
  match s with
  | [] => []
  | c :: t => if p c then drop_while p t else s
  end.

Definition trim (s : jsstring) : jsstring :=
  rev (drop_while is_white (rev (drop_while is_white s))).

(** [s.split(/[sep]+/)]: the pieces between the maximal runs of separators.
    The result is never empty, and a separator run at either end leaves an
    empty piece there.  [in_run] says that the previous code unit was a
    separator; the head of the result is the piece being read. *)
Fixpoint split_runs (sep : char16 -> bool) (in_run : bool) (s : jsstring)
  : list jsstring :=
  match s with
  | [] => [[]]
  | c :: t =>
      if sep c then
        if in_run then split_runs sep true t else [] :: split_runs sep true t
      else
        match split_runs sep false t with
        | piece :: pieces => (c :: piece) :: pieces
        | [] => [[c]]
        end
  end.

Definition split_class (sep : char16 -> bool) (s : jsstring) : list jsstring :=
  split_runs sep false s.

(** [s.split(c).pop()]: what follows the last [c], all of [s] without one. *)
Definition split_pop (c : char16) (s : jsstring) : jsstring :=
  fold_left (fun piece x => if (x =? c)%N then [] else piece ++ [x]) s [].

Fixpoint jseqb (a b : jsstring) : bool :=
  match a, b with
  | [], [] => true
  | x :: a', y :: b' => (x =? y)%N && jseqb a' b'
  | _, _ => false
  end.

(** [String(n)] for a non-negative integer. *)
Definition decimal (n : N) : jsstring :=
  lit (NilEmpty.string_of_uint (N.to_uint n)).

(** [Math.round]: the nearest integer, a tie going up.  Its argument is
    taken in the rationals.  The sources round [total / length], a quotient
    of integers far below 2^53 on which the doubles of the runtime give the
    same integer, and [(loaded / total) * 100], where the double product can
    fall on the other side of a tie; no property below depends on the value
    a progress event writes. *)
Definition Math_round (q : Q) : Z := Qfloor (q + (1 # 2))%Q.

(** A value that was thrown, or with which a promise was rejected: an
    [Error], a [ZodError] (an [Error] too, its message the text of the
    issues), or a value that is no [Error]. *)
Inductive thrown :=
| ErrorObj (message : jsstring)
| ZodError (message : jsstring)
| NotAnError.

(** A settled promise. *)
Definition settled (A : Type) : Type := (thrown + A)%type.

End JS.

Import JS.

(** ** Asynchronous code as a log of effects

    An [async] function is run against a scripted environment: each awaited
    promise is given settled.  What the function does to the world, in the
    order it does it, is written to a log; a [throw] or a rejected [await]
    ends the computation unless a [try] catches it. *)

Module Async.

Section Monad.
Context {E : Type}.

Definition M (A : Type) : Type := (list E * settled A)%type.

Definition ret {A} (a : A) : M A := ([], inr a).

Definition bind {A B} (m : M A) (k : A -> M B) : M B :=
  match m with
  | (l, inl e) => (l, inl e)
  | (l, inr a) => let (l', r) := k a in (l ++ l', r)
  end.

Definition throw {A} (e : thrown) : M A := ([], inl e).

Definition emit (ev : E) : M unit := ([ev], inr tt).

(** [await p] for a promise the environment has settled. *)
Definition await {A} (p : settled A) : M A := ([], p).

Definition try_catch {A} (body : M A) (handler : thrown -> M A) : M A :=
  match body with
  | (l, inl e) => let (l', r) := handler e in (l ++ l', r)
  | (l, inr a) => (l, inr a)
  end.

Definition log {A} (m : M A) : list E := fst m.
Definition outcome {A} (m : M A) : settled A := snd m.

End Monad.
Arguments M : clear implicits.

Declare Scope async_scope.
Delimit Scope async_scope with async.
Notation "x <- m ;; k" := (bind m (fun x => k))
  (at level 61, m at next level, right associativity) : async_scope.
Notation "m ;; k" := (bind m (fun _ => k))
  (at level 61, right associativity) : async_scope.

End Async.

Import Async.

(** ** The client: [CloudUploader.tsx] *)

Module Provider.
Inductive t := s3 | gcp | azure.
End Provider.

Module S3Config.
Record t := {
  bucket : jsstring;
  region : jsstring;
  accessKeyId : jsstring;
  secretAccessKey : jsstring;
  sessionToken : option jsstring;
  endpoint : option jsstring
}.
End S3Config.

Module GCPConfig.
Record t := {
  bucket : jsstring;
  projectId : jsstring;
  keyFile : jsstring
}.
End GCPConfig.

Module AzureConfig.
Record t := {
  accountName : jsstring;
  containerName : jsstring;
  accountKey : option jsstring;
  sasToken : option jsstring
}.
End AzureConfig.

Module Status.
Inductive t := pending | uploading | success | error.
End Status.

Module Uploader.

Record CloudConfig := {
  provider : Provider.t;
  s3 : option S3Config.t;
  gcp : option GCPConfig.t;
  azure : option AzureConfig.t
}.

Record UploadItem := {
  id : jsstring;
  url : jsstring;
  status : Status.t;
  progress : Z;
  error : option jsstring;
  fileName : option jsstring
}.

Record UploadState := {
  items : list UploadItem;
  isUploading : bool
}.

(** [x?.f] followed by a truthiness test: an absent object or an absent
    field is falsy. *)
Definition field {C} (c : option C) (f : C -> jsstring) : bool :=
  match c with Some x => truthy (f x) | None => false end.

Definition opt_field {C} (c : option C) (f : C -> option jsstring) : bool :=
  match c with
  | Some x => match f x with Some v => truthy v | None => false end
  | None => false
  end.

(** [a || b] on strings that may be [undefined]. *)
Definition or_else (a : option jsstring) (b : jsstring) : jsstring :=
  match a with
  | Some v => if truthy v then v else b
  | None => b
  end.

(** The characters that [sanitizeUrl] strips: less-than, greater-than, the
    single and the double quote.  [sanitizeInput] strips the ampersand too. *)
Definition markup_char (c : char16) : bool :=
  (c =? 60)%N || (c =? 62)%N || (c =? 39)%N || (c =? 34)%N.

Definition sanitizeInput (input : jsstring) : jsstring :=
  remove_class (fun c => markup_char c || (c =? 38)%N) (trim input).

Definition sanitizeUrl (url : jsstring) : jsstring :=
  remove_class markup_char (trim url).

Definition underscore : char16 := 95%N.

(** The class [[a-zA-Z0-9._-]]. *)
Definition file_name_char (c : char16) : bool :=
  in_range 97 122 c || in_range 65 90 c || in_range 48 57 c
  || (c =? 46)%N || (c =? 95)%N || (c =? 45)%N.

(** [sanitizeFileName]:
    [fileName.replace(/[^a-zA-Z0-9._-]/g, '_').replace(/_{2,}/g, '_').substring(0, 255)]. *)
Definition sanitizeFileName (fileName : jsstring) : jsstring :=
  substring0 255
    (collapse_runs underscore
       (replace_class (fun c => negb (file_name_char c)) underscore fileName)).

(** The separators [[,\n\r]] of [parseUrls]. *)
Definition url_separator (c : char16) : bool :=
  (c =? 44)%N || (c =? 10)%N || (c =? 13)%N.

(** [isCloudConfigured], on the configuration held by the component. *)
Definition isCloudConfigured (cloudConfig : CloudConfig) : bool :=
  match provider cloudConfig with
  | Provider.s3 =>
      let s3Config := s3 cloudConfig in
      field s3Config S3Config.bucket
      && field s3Config S3Config.accessKeyId
      && field s3Config S3Config.secretAccessKey
  | Provider.gcp =>
      let gcpConfig := gcp cloudConfig in
      field gcpConfig GCPConfig.bucket
      && field gcpConfig GCPConfig.projectId
      && field gcpConfig GCPConfig.keyFile
  | Provider.azure =>
      let azureConfig := azure cloudConfig in
      field azureConfig AzureConfig.accountName
      && field azureConfig AzureConfig.containerName
      && (opt_field azureConfig AzureConfig.accountKey
          || opt_field azureConfig AzureConfig.sasToken)
  end.

(** [getOverallProgress]. *)
Definition total_progress (l : list UploadItem) : Z :=
  fold_left (fun sum item => (sum + progress item)%Z) l 0%Z.

Definition getOverallProgress (uploadState : UploadState) : Z :=
  match length (items uploadState) with
  | O => 0%Z
  | S n =>
      Math_round
        (inject_Z (total_progress (items uploadState))
         / inject_Z (Z.of_nat (S n)))%Q
  end.

(** *** The environment of one item

    While one item is processed the orchestrator awaits three network
    operations.  An [Exchange] scripts what they answer. *)

Record Blob := { blob_type : jsstring }.

Record Response := {
  ok : bool;
  statusText : jsstring;
  blob : settled Blob
}.

Record BrokerBody := {
  error_message : option jsstring;   (* [body.error?.message] *)
  signedUrl : jsstring
}.

Record BrokerResponse := {
  broker_ok : bool;
  json : settled BrokerBody
}.

(** A [progress] event of the upload.  [total] is read only when
    [lengthComputable] holds, and then it is not 0. *)
Record ProgressEvent := {
  lengthComputable : bool;
  loaded : N;
  total : positive
}.

(** How the transfer ends: a [load] event with the final status, or an
    [error] event. *)
Inductive XhrEnd :=
| xhr_load (xhr_status : N)
| xhr_error.

Record Exchange := {
  source : settled Response;
  broker : settled BrokerResponse;
  upload_progress : list ProgressEvent;
  upload_end : XhrEnd
}.

Record File := { file_name : jsstring; file_type : jsstring }.

(** *** State updates

    Every [setUploadState] of the component is one of these. *)

Inductive patch :=
| to_uploading                       (* [{...i, status: 'uploading', progress: 0}] *)
| to_progress (p : Z)                (* [{...item, progress}] *)
| to_success                         (* [{...i, status: 'success', progress: 100}] *)
| to_error (message : jsstring).     (* [{...i, status: 'error', progress: 0, error}] *)

Definition apply_patch (f : patch) (i : UploadItem) : UploadItem :=
  match f with
  | to_uploading =>
      {| id := id i; url := url i; status := Status.uploading;
         progress := 0; error := error i; fileName := fileName i |}
  | to_progress p =>
      {| id := id i; url := url i; status := status i;
         progress := p; error := error i; fileName := fileName i |}
  | to_success =>
      {| id := id i; url := url i; status := Status.success;
         progress := 100; error := error i; fileName := fileName i |}
  | to_error message =>
      {| id := id i; url := url i; status := Status.error;
         progress := 0; error := Some message; fileName := fileName i |}
  end.

Inductive update :=
| set_state (st : UploadState)                 (* [setUploadState({...})] *)
| map_item (itemId : jsstring) (f : patch)     (* [items: prev.items.map(...)] *)
| set_isUploading (b : bool)                   (* [{...prev, isUploading: b}] *)
| filter_item (itemId : jsstring).             (* [removeItem] *)

Definition apply_update (u : update) (prev : UploadState) : UploadState :=
  match u with
  | set_state st => st
  | map_item itemId f =>
      {| items := map (fun i => if jseqb (id i) itemId then apply_patch f i
                                else i) (items prev);
         isUploading := isUploading prev |}
  | set_isUploading b => {| items := items prev; isUploading := b |}
  | filter_item itemId =>
      {| items := filter (fun item => negb (jseqb (id item) itemId))
                    (items prev);
         isUploading := isUploading prev |}
  end.

(** [removeItem], the update a click on an item's cross queues. *)
Definition removeItem (itemId : jsstring) : update := filter_item itemId.

(** What the component does to the world. *)
Inductive event :=
| setUploadState (u : update)
| fetch_source (url : jsstring)
| fetch_broker (endpoint fileName fileType : jsstring) (p : Provider.t)
| xhr_send (method url : jsstring) (headers : list (jsstring * jsstring))
    (file : File)
| console_error.

Definition toUpperCase (p : Provider.t) : jsstring :=
  match p with
  | Provider.s3 => lit "S3"
  | Provider.gcp => lit "GCP"
  | Provider.azure => lit "AZURE"
  end.

Local Open Scope async_scope.

(** [getPresignedUrl]. *)
Definition getPresignedUrl (cloudConfig : CloudConfig)
  (fileName fileType : jsstring) (answer : settled BrokerResponse)
  : M event jsstring :=
  match provider cloudConfig with
  | Provider.s3 =>
      let s3Config := s3 cloudConfig in
      if negb (field s3Config S3Config.bucket)
         || negb (field s3Config S3Config.accessKeyId)
         || negb (field s3Config S3Config.secretAccessKey)
      then throw (ErrorObj (lit "S3 configuration required")) else ret tt
  | Provider.gcp =>
      let gcpConfig := gcp cloudConfig in
      if negb (field gcpConfig GCPConfig.bucket)
         || negb (field gcpConfig GCPConfig.projectId)
         || negb (field gcpConfig GCPConfig.keyFile)
      then throw (ErrorObj (lit "GCP configuration required")) else ret tt
  | Provider.azure =>
      let azureConfig := azure cloudConfig in
      if negb (field azureConfig AzureConfig.accountName)
         || negb (field azureConfig AzureConfig.containerName)
         || (negb (opt_field azureConfig AzureConfig.accountKey)
             && negb (opt_field azureConfig AzureConfig.sasToken))
      then throw (ErrorObj (lit "Azure configuration required")) else ret tt
  end ;;
  let endpoint :=
    match provider cloudConfig with
    | Provider.s3 => lit "/api/s3-presigned-url"
    | Provider.gcp => lit "/api/gcp-signed-url"
    | Provider.azure => lit "/api/azure-sas-url"
    end in
  emit (fetch_broker endpoint (sanitizeFileName fileName)
          (sanitizeInput fileType) (provider cloudConfig)) ;;
  response <- await answer ;;
  if negb (broker_ok response) then
    errorData <- await (json response) ;;
    throw (ErrorObj
             (or_else (error_message errorData)
                (lit "Failed to get " ++ toUpperCase (provider cloudConfig)
                 ++ lit " signed URL")))
  else
    body <- await (json response) ;;
    ret (signedUrl body).

(** The [progress] listener of [uploadFileToCloud]. *)
Definition on_progress (itemId : jsstring) (e : ProgressEvent) : M event unit :=
  if lengthComputable e then
    let progress :=
      Math_round ((inject_Z (Z.of_N (loaded e)) / inject_Z (Zpos (total e)))
                  * inject_Z 100)%Q in
    emit (setUploadState (map_item itemId (to_progress progress)))
  else ret tt.

Fixpoint each_progress (itemId : jsstring) (es : list ProgressEvent)
  : M event unit :=
  match es with
  | [] => ret tt
  | e :: rest => on_progress itemId e ;; each_progress itemId rest
  end.

(** [uploadFileToCloud]: the request is opened and sent, the progress events
    arrive, then the [load] or the [error] listener settles the promise. *)
Definition uploadFileToCloud (cloudConfig : CloudConfig) (file : File)
  (signedUrl : jsstring) (itemId : jsstring)
  (progress_events : list ProgressEvent) (upload_end : XhrEnd)
  : M event unit :=
  let method := lit "PUT" in
  let headers :=
    match provider cloudConfig with
    | Provider.s3 => [(lit "Content-Type", file_type file)]
    | Provider.gcp => [(lit "Content-Type", file_type file)]
    | Provider.azure => [(lit "Content-Type", file_type file);
                         (lit "x-ms-blob-type", lit "BlockBlob")]
    end in
  emit (xhr_send method signedUrl headers file) ;;
  each_progress itemId progress_events ;;
  match upload_end with
  | xhr_load xhr_status =>
      if (xhr_status =? 200)%N || (xhr_status =? 201)%N then ret tt
      else throw (ErrorObj (lit "Upload failed: " ++ decimal xhr_status))
  | xhr_error => throw (ErrorObj (lit "Network error"))
  end.

(** The [try] block of [processUpload] up to the transfer: the source is
    fetched, the file named and the write credential obtained. *)
Definition prepare (cloudConfig : CloudConfig) (item : UploadItem)
  (x : Exchange) : M event (File * jsstring) :=
  emit (setUploadState (map_item (id item) to_uploading)) ;;
  emit (fetch_source (url item)) ;;
  response <- await (source x) ;;
  if negb (ok response) then
    throw (ErrorObj (lit "Fetch failed: " ++ statusText response))
  else
    blob' <- await (blob response) ;;
    let fileName :=
      sanitizeFileName
        (or_else (fileName item)
           (or_else (Some (split_pop 47%N (url item))) (lit "uploaded-file"))) in
    let file := {| file_name := fileName; file_type := blob_type blob' |} in
    presignedUrl <-
      getPresignedUrl cloudConfig fileName (file_type file) (broker x) ;;
    ret (file, presignedUrl).

Definition attempt (cloudConfig : CloudConfig) (item : UploadItem)
  (x : Exchange) : M event unit :=
  ready <- prepare cloudConfig item x ;;
  uploadFileToCloud cloudConfig (fst ready) (snd ready) (id item)
    (upload_progress x) (upload_end x) ;;
  emit (setUploadState (map_item (id item) to_success)).

(** [error instanceof Error ? error.message : 'Upload failed']. *)
Definition message_of (error : thrown) : jsstring :=
  match error with
  | ErrorObj message | ZodError message => message
  | NotAnError => lit "Upload failed"
  end.

(** [processUpload]. *)
Definition processUpload (cloudConfig : CloudConfig) (item : UploadItem)
  (x : Exchange) : M event unit :=
  try_catch (attempt cloudConfig item x)
    (fun error =>
       emit (setUploadState
               (map_item (id item) (to_error (message_of error))))).

(** [for (const item of items) await processUpload(item)]; the [k]-th item
    of the batch meets the exchange [world k]. *)
Fixpoint process_each (cloudConfig : CloudConfig) (world : nat -> Exchange)
  (k : nat) (items : list UploadItem) : M event unit :=
  match items with
  | [] => ret tt
  | item :: rest =>
      processUpload cloudConfig item (world k) ;;
      process_each cloudConfig world (S k) rest
  end.

(** [urls.map((url, index) => ({id: `${Date.now()}-${index}`, url,
    status: 'pending', progress: 0}))]; [now index] is what [Date.now()]
    returns when the item [index] is made. *)
Fixpoint new_items (now : nat -> N) (index : nat) (urls : list jsstring)
  : list UploadItem :=
  match urls with
  | [] => []
  | url :: rest =>
      {| id := decimal (now index) ++ lit "-" ++ decimal (N.of_nat index);
         url := url; status := Status.pending; progress := 0;
         error := None; fileName := None |}
      :: new_items now (S index) rest
  end.

Section WithURL.

(** The runtime's [URL] constructor: [URL_protocol u] is the [protocol] of
    [new URL(u)], and [None] when the constructor throws. *)
Variable URL_protocol : jsstring -> option jsstring.

Definition isValidUrl (url : jsstring) : bool :=
  match URL_protocol url with
  | Some protocol =>
      jseqb protocol (lit "http:") || jseqb protocol (lit "https:")
  | None => false
  end.

Definition parseUrls (input : jsstring) : list jsstring :=
  filter (fun url => truthy url && isValidUrl url)
    (map sanitizeUrl (split_class url_separator input)).

Variable cloudConfig : CloudConfig.

(** [handleSingleUpload]. *)
Definition handleSingleUpload (singleUrl : jsstring) (now : N)
  (x : Exchange) : M event unit :=
  let sanitized := sanitizeUrl singleUrl in
  if negb (isValidUrl sanitized) then ret tt
  else
    let item := {| id := decimal now; url := sanitized;
                   status := Status.pending; progress := 0;
                   error := None; fileName := None |} in
    emit (setUploadState
            (set_state {| items := [item]; isUploading := true |})) ;;
    processUpload cloudConfig item x ;;
    emit (setUploadState (set_isUploading false)).

(** [handleBulkUpload]. *)
Definition handleBulkUpload (bulkUrls : jsstring) (now : nat -> N)
  (world : nat -> Exchange) : M event unit :=
  let urls := parseUrls bulkUrls in
  match urls with
  | [] => ret tt
  | _ :: _ =>
      let items := new_items now 0 urls in
      emit (setUploadState
              (set_state {| items := items; isUploading := true |})) ;;
      process_each cloudConfig world 0 items ;;
      emit (setUploadState (set_isUploading false))
  end.

(** [handleFileUpload]; [file] is [event.target.files?.[0]], given by the
    promise of its [text()]. *)
Definition handleFileUpload (file : option (settled jsstring))
  (now : nat -> N) (world : nat -> Exchange) : M event unit :=
  match file with
  | None => ret tt
  | Some file_text =>
      try_catch
        (text <- await file_text ;;
         let urls := parseUrls text in
         match urls with
         | [] => throw (ErrorObj (lit "No valid URLs found in file"))
         | _ :: _ =>
             let items := new_items now 0 urls in
             emit (setUploadState
                     (set_state {| items := items; isUploading := true |})) ;;
             process_each cloudConfig world 0 items ;;
             emit (setUploadState (set_isUploading false))
         end)
        (fun _ => emit console_error)
  end.

End WithURL.

(** *** Running a log

    React applies the queued updates in the order of the calls; the other
    events leave the state alone. *)

Definition updates (tr : list event) : list update :=
  flat_map (fun e => match e with setUploadState u => [u] | _ => [] end) tr.

(** The patches of the [map_item] updates of a log. *)
Definition patches (tr : list event) : list patch :=
  flat_map (fun u => match u with map_item _ f => [f] | _ => [] end)
    (updates tr).

(** The source fetches of a log. *)
Definition source_fetches (tr : list event) : list jsstring :=
  flat_map (fun e => match e with fetch_source u => [u] | _ => [] end) tr.

Definition final (st : UploadState) (tr : list event) : UploadState :=
  fold_left (fun prev u => apply_update u prev) (updates tr) st.

(** The state after each update, in order: what an observer can see.  A
    handler runs alone: the buttons that start another one are disabled
    while [isUploading] holds. *)
Fixpoint trajectory (st : UploadState) (us : list update)
  : list UploadState :=
  match us with
  | [] => []
  | u :: rest => apply_update u st :: trajectory (apply_update u st) rest
  end.

Definition observable (st : UploadState) (tr : list event)
  : list UploadState :=
  trajectory st (updates tr).

(** The same for one item and its patches. *)
Fixpoint item_trajectory (i : UploadItem) (fs : list patch)
  : list UploadItem :=
  match fs with
  | [] => []
  | f :: rest => apply_patch f i :: item_trajectory (apply_patch f i) rest
  end.

(** The item [processUpload] leaves when it runs on [item] alone. *)
Definition settle (cloudConfig : CloudConfig) (item : UploadItem)
  (x : Exchange) : UploadItem :=
  hd item
    (items (final {| items := [item]; isUploading := true |}
              (log (processUpload cloudConfig item x)))).

(** [getStatusCounts]: the accumulator object, keyed by status, as a
    function; [acc[item.status]++] is [bump]. *)
Definition status_eqb (a b : Status.t) : bool :=
  match a, b with
  | Status.pending, Status.pending
  | Status.uploading, Status.uploading
  | Status.success, Status.success
  | Status.error, Status.error => true
  | _, _ => false
  end.

Definition bump (acc : Status.t -> nat) (st : Status.t) : Status.t -> nat :=
  fun k => if status_eqb k st then S (acc k) else acc k.

Definition getStatusCounts (uploadState : UploadState) : Status.t -> nat :=
  fold_left (fun acc item => bump acc (status item)) (items uploadState)
    (fun _ => 0%nat).

End Uploader.

(** ** The server: the routes that issue write credentials

    The repository holds two sets of routes.  [ConfigRoutes] is
    [src/server/routes/{s3,gcp,azure}.ts], which [src/server/index.ts]
    mounts; [RequestRoutes] is the other set, whose schemas are named
    [s3RequestSchema], [gcpRequestSchema] and [azureRequestSchema]. *)

Module Server.

(** The parsed body of a request. *)
#[local] Unset Elimination Schemes.
Inductive json :=
| JNull
| JBool (b : bool)
| JNumber (n : Z)
| JString (s : jsstring)
| JArray (elements : list json)
| JObject (members : list (string * json)).
#[local] Set Elimination Schemes.

Fixpoint lookup (key : string) (members : list (string * json))
  : option json :=
  match members with
  | [] => None
  | (k, v) :: rest => if String.eqb k key then Some v else lookup key rest
  end.

(** [v[key]], [undefined] being [None]. *)
Definition member (key : string) (v : json) : option json :=
  match v with
  | JObject members => lookup key members
  | _ => None
  end.

(** *** The zod schemas used by the routes; [None] is a [ZodError]. *)

Definition z_string_min (n : nat) (v : option json) : option jsstring :=
  match v with
  | Some (JString s) => if (n <=? length s)%nat then Some s else None
  | _ => None
  end.

Definition z_string_min_max (n m : nat) (v : option json) : option jsstring :=
  match v with
  | Some (JString s) =>
      if ((n <=? length s) && (length s <=? m))%nat then Some s else None
  | _ => None
  end.

Definition z_string_optional (v : option json) : option (option jsstring) :=
  match v with
  | None => Some None
  | Some (JString s) => Some (Some s)
  | Some _ => None
  end.

Definition z_literal (l : jsstring) (v : option json) : option unit :=
  match v with
  | Some (JString s) => if jseqb s l then Some tt else None
  | _ => None
  end.

Definition z_object (v : option json) : option json :=
  match v with
  | Some (JObject members) => Some (JObject members)
  | _ => None
  end.

Notation "x <-? m ; k" :=
  (match m with Some x => k | None => None end)
  (at level 61, m at next level, right associativity).

Record Request (C : Type) := {
  fileName : jsstring;
  fileType : jsstring;
  config : C
}.
Arguments fileName {C}.
Arguments fileType {C}.
Arguments config {C}.

(** An optional string when it is truthy: [if (v)], and [...(v && {k: v})],
    which passes the key only then. *)
Definition when_given (v : option jsstring) : option jsstring :=
  match v with
  | Some s => if truthy s then Some s else None
  | None => None
  end.

(** What a route answers. *)
Inductive Body :=
| signed (signedUrl : jsstring)
| failure (code : string) (message : jsstring).

Record HttpResponse := { http_status : N; http_body : Body }.

(** The calls into the providers' SDKs. *)
Inductive sdk_call :=
| s3_getSignedUrl (region accessKeyId secretAccessKey : jsstring)
    (sessionToken endpoint : option jsstring)
    (Bucket Key ContentType : jsstring) (expiresIn : Z)
| gcs_getSignedUrl (projectId : jsstring) (credentials : jsstring + json)
    (bucket file : jsstring) (version action : string) (expires : Z)
    (contentType : jsstring)
| azure_generateSasUrl (serviceUrl : jsstring)
    (sharedKey : option (jsstring * jsstring))
    (containerName blobName : jsstring) (permissions : string)
    (expiresOn : Z)
| azure_generateBlobSASQueryParameters (accountName accountKey : jsstring)
    (containerName blobName : jsstring) (permissions : string)
    (startsOn expiresOn : Z).

Local Open Scope async_scope.

Definition respond (status : N) (b : Body) : M sdk_call HttpResponse :=
  ret {| http_status := status; http_body := b |}.

(** [error instanceof Error ? error.message : fallback]. *)
Definition message_or (fallback : jsstring) (error : thrown) : jsstring :=
  match error with
  | ErrorObj message | ZodError message => message
  | NotAnError => fallback
  end.

(** [schema.parse(req.body)]; [zod_issues] gives the text of the issues a
    [ZodError] carries for a body. *)
Definition parse {R} (zod_issues : json -> jsstring)
  (schema : json -> option R) (body : json) : M sdk_call R :=
  match schema body with
  | Some data => ret data
  | None => throw (ZodError (zod_issues body))
  end.

Definition blob_service_url (accountName : jsstring) : jsstring :=
  lit "https://" ++ accountName ++ lit ".blob.core.windows.net".

Definition hour_ms : Z := 60 * 60 * 1000.

(** *** [src/server/routes] *)

Module ConfigRoutes.

Definition s3ConfigSchema (body : json) : option (Request S3Config.t) :=
  b <-? z_object (Some body) ;
  fileName <-? z_string_min 1 (member "fileName" b) ;
  fileType <-? z_string_min 1 (member "fileType" b) ;
  c <-? z_object (member "config" b) ;
  _ <-? z_literal (lit "s3") (member "provider" c) ;
  bucket <-? z_string_min 1 (member "bucket" c) ;
  region <-? z_string_min 1 (member "region" c) ;
  accessKeyId <-? z_string_min 1 (member "accessKeyId" c) ;
  secretAccessKey <-? z_string_min 1 (member "secretAccessKey" c) ;
  sessionToken <-? z_string_optional (member "sessionToken" c) ;
  endpoint <-? z_string_optional (member "endpoint" c) ;
  Some {| fileName := fileName; fileType := fileType;
          config := {| S3Config.bucket := bucket; S3Config.region := region;
                       S3Config.accessKeyId := accessKeyId;
                       S3Config.secretAccessKey := secretAccessKey;
                       S3Config.sessionToken := sessionToken;
                       S3Config.endpoint := endpoint |} |}.

Definition gcpConfigSchema (body : json) : option (Request GCPConfig.t) :=
  b <-? z_object (Some body) ;
  fileName <-? z_string_min 1 (member "fileName" b) ;
  fileType <-? z_string_min 1 (member "fileType" b) ;
  c <-? z_object (member "config" b) ;
  _ <-? z_literal (lit "gcp") (member "provider" c) ;
  bucket <-? z_string_min 1 (member "bucket" c) ;
  projectId <-? z_string_min 1 (member "projectId" c) ;
  keyFile <-? z_string_min 1 (member "keyFile" c) ;
  Some {| fileName := fileName; fileType := fileType;
          config := {| GCPConfig.bucket := bucket;
                       GCPConfig.projectId := projectId;
                       GCPConfig.keyFile := keyFile |} |}.

Definition azureConfigSchema (body : json) : option (Request AzureConfig.t) :=
  b <-? z_object (Some body) ;
  fileName <-? z_string_min 1 (member "fileName" b) ;
  fileType <-? z_string_min 1 (member "fileType" b) ;
  c <-? z_object (member "config" b) ;
  _ <-? z_literal (lit "azure") (member "provider" c) ;
  accountName <-? z_string_min 1 (member "accountName" c) ;
  containerName <-? z_string_min 1 (member "containerName" c) ;
  accountKey <-? z_string_optional (member "accountKey" c) ;
  sasToken <-? z_string_optional (member "sasToken" c) ;
  Some {| fileName := fileName; fileType := fileType;
          config := {| AzureConfig.accountName := accountName;
                       AzureConfig.containerName := containerName;
                       AzureConfig.accountKey := accountKey;
                       AzureConfig.sasToken := sasToken |} |}.

Section Runtime.
Variable zod_issues : json -> jsstring.

(** [s3.ts]; [now] is [Date.now()], [answer] what the SDK call settles to. *)
Definition s3Routes (now : Z) (answer : settled jsstring) (body : json)
  : M sdk_call HttpResponse :=
  try_catch
    (validatedData <- parse zod_issues s3ConfigSchema body ;;
     let c := config validatedData in
     emit (s3_getSignedUrl (S3Config.region c) (S3Config.accessKeyId c)
             (S3Config.secretAccessKey c)
             (when_given (S3Config.sessionToken c))
             (when_given (S3Config.endpoint c))
             (S3Config.bucket c) (fileName validatedData)
             (fileType validatedData) 3600) ;;
     signedUrl <- await answer ;;
     respond 200 (signed signedUrl))
    (fun error =>
       respond 400
         (failure "S3_PRESIGNED_URL_ERROR"
            (message_or (lit "Failed to generate presigned URL") error))).

(** [gcp.ts]. *)
Definition gcpRoutes (now : Z) (answer : settled jsstring) (body : json)
  : M sdk_call HttpResponse :=
  try_catch
    (validatedData <- parse zod_issues gcpConfigSchema body ;;
     let c := config validatedData in
     emit (gcs_getSignedUrl (GCPConfig.projectId c)
             (inl (GCPConfig.keyFile c))          (* [keyFilename] *)
             (GCPConfig.bucket c) (fileName validatedData)
             "v4" "write" (now + hour_ms) (fileType validatedData)) ;;
     signedUrl <- await answer ;;
     respond 200 (signed signedUrl))
    (fun error =>
       respond 400
         (failure "GCP_SIGNED_URL_ERROR"
            (message_or (lit "Failed to generate signed URL") error))).

(** [azure.ts]. *)
Definition azureRoutes (now : Z) (answer : settled jsstring) (body : json)
  : M sdk_call HttpResponse :=
  try_catch
    (validatedData <- parse zod_issues azureConfigSchema body ;;
     let c := config validatedData in
     blobServiceClient <-
       match when_given (AzureConfig.accountKey c) with
       | Some accountKey =>
           ret (blob_service_url (AzureConfig.accountName c),
                Some (AzureConfig.accountName c, accountKey))
       | None =>
           match when_given (AzureConfig.sasToken c) with
           | Some sasToken =>
               ret (blob_service_url (AzureConfig.accountName c) ++ lit "?"
                    ++ sasToken, None)
           | None =>
               throw (ErrorObj
                        (lit "Either accountKey or sasToken must be provided"))
           end
       end ;;
     emit (azure_generateSasUrl (fst blobServiceClient)
             (snd blobServiceClient) (AzureConfig.containerName c)
             (fileName validatedData) "w" (now + hour_ms)) ;;
     sasUrl <- await answer ;;
     respond 200 (signed sasUrl))
    (fun error =>
       respond 400
         (failure "AZURE_SAS_URL_ERROR"
            (message_or (lit "Failed to generate SAS URL") error))).

End Runtime.

End ConfigRoutes.

(** *** The other set of routes *)

Module RequestRoutes.

Definition s3RequestSchema (body : json) : option (Request S3Config.t) :=
  b <-? z_object (Some body) ;
  fileName <-? z_string_min_max 1 255 (member "fileName" b) ;
  fileType <-? z_string_min 1 (member "fileType" b) ;
  c <-? z_object (member "config" b) ;
  _ <-? z_literal (lit "s3") (member "provider" c) ;
  bucket <-? z_string_min 1 (member "bucket" c) ;
  region <-? z_string_min 1 (member "region" c) ;
  accessKeyId <-? z_string_min 1 (member "accessKeyId" c) ;
  secretAccessKey <-? z_string_min 1 (member "secretAccessKey" c) ;
  sessionToken <-? z_string_optional (member "sessionToken" c) ;
  endpoint <-? z_string_optional (member "endpoint" c) ;
  Some {| fileName := fileName; fileType := fileType;
          config := {| S3Config.bucket := bucket; S3Config.region := region;
                       S3Config.accessKeyId := accessKeyId;
                       S3Config.secretAccessKey := secretAccessKey;
                       S3Config.sessionToken := sessionToken;
                       S3Config.endpoint := endpoint |} |}.

Definition gcpRequestSchema (body : json) : option (Request GCPConfig.t) :=
  b <-? z_object (Some body) ;
  fileName <-? z_string_min_max 1 255 (member "fileName" b) ;
  fileType <-? z_string_min 1 (member "fileType" b) ;
  c <-? z_object (member "config" b) ;
  _ <-? z_literal (lit "gcp") (member "provider" c) ;
  bucket <-? z_string_min 1 (member "bucket" c) ;
  projectId <-? z_string_min 1 (member "projectId" c) ;
  keyFile <-? z_string_min 1 (member "keyFile" c) ;
  Some {| fileName := fileName; fileType := fileType;
          config := {| GCPConfig.bucket := bucket;
                       GCPConfig.projectId := projectId;
                       GCPConfig.keyFile := keyFile |} |}.

(** The [refine] of the Azure schema: [data.accountKey || data.sasToken]. *)
Definition has_authentication (c : AzureConfig.t) : bool :=
  match when_given (AzureConfig.accountKey c),
        when_given (AzureConfig.sasToken c) with
  | None, None => false
  | _, _ => true
  end.

Definition azureRequestSchema (body : json)
  : option (Request AzureConfig.t) :=
  b <-? z_object (Some body) ;
  fileName <-? z_string_min_max 1 255 (member "fileName" b) ;
  fileType <-? z_string_min 1 (member "fileType" b) ;
  c <-? z_object (member "config" b) ;
  _ <-? z_literal (lit "azure") (member "provider" c) ;
  accountName <-? z_string_min 1 (member "accountName" c) ;
  containerName <-? z_string_min 1 (member "containerName" c) ;
  accountKey <-? z_string_optional (member "accountKey" c) ;
  sasToken <-? z_string_optional (member "sasToken" c) ;
  let data := {| AzureConfig.accountName := accountName;
                 AzureConfig.containerName := containerName;
                 AzureConfig.accountKey := accountKey;
                 AzureConfig.sasToken := sasToken |} in
  if has_authentication data then
    Some {| fileName := fileName; fileType := fileType; config := data |}
  else None.

Section Runtime.
Variable zod_issues : json -> jsstring.

(** [JSON.parse], [None] when it throws. *)
Variable JSON_parse : jsstring -> option json.

(** [blobClient.url] for a service URL, a container and a blob name. *)
Variable blob_url : jsstring -> jsstring -> jsstring -> jsstring.

(** The [catch] of the three routes. *)
Definition on_error (code : string) (message : jsstring) (error : thrown)
  : M sdk_call HttpResponse :=
  match error with
  | ZodError _ => respond 400 (failure "VALIDATION_ERROR"
                                 (lit "Invalid request data"))
  | _ => respond 500 (failure code message)
  end.

Definition s3Routes (answer : settled jsstring) (body : json)
  : M sdk_call HttpResponse :=
  try_catch
    (validatedData <- parse zod_issues s3RequestSchema body ;;
     let c := config validatedData in
     emit (s3_getSignedUrl (S3Config.region c) (S3Config.accessKeyId c)
             (S3Config.secretAccessKey c) (S3Config.sessionToken c)
             (S3Config.endpoint c)
             (S3Config.bucket c) (fileName validatedData)
             (fileType validatedData) 3600) ;;
     signedUrl <- await answer ;;
     respond 200 (signed signedUrl))
    (on_error "S3_ERROR" (lit "Failed to generate S3 presigned URL")).

Definition gcpRoutes (now : Z) (answer : settled jsstring) (body : json)
  : M sdk_call HttpResponse :=
  try_catch
    (validatedData <- parse zod_issues gcpRequestSchema body ;;
     let c := config validatedData in
     match JSON_parse (GCPConfig.keyFile c) with
     | None =>
         respond 400 (failure "INVALID_CREDENTIALS"
                        (lit "Invalid service account key format"))
     | Some credentials =>
         emit (gcs_getSignedUrl (GCPConfig.projectId c) (inr credentials)
                 (GCPConfig.bucket c) (fileName validatedData)
                 "v4" "write" (now + hour_ms) (fileType validatedData)) ;;
         signedUrl <- await answer ;;
         respond 200 (signed signedUrl)
     end)
    (on_error "GCP_ERROR" (lit "Failed to generate GCP signed URL")).

(** [now 0] and [now 1] are the two readings of the clock, for [startsOn]
    and for [expiresOn]; [answer] is what [generateBlobSASQueryParameters]
    returns or throws. *)
Definition azureRoutes (now : nat -> Z) (answer : settled jsstring)
  (body : json) : M sdk_call HttpResponse :=
  try_catch
    (validatedData <- parse zod_issues azureRequestSchema body ;;
     let c := config validatedData in
     signedUrl <-
       match when_given (AzureConfig.accountKey c) with
       | Some accountKey =>
           emit (azure_generateBlobSASQueryParameters
                   (AzureConfig.accountName c) accountKey
                   (AzureConfig.containerName c) (fileName validatedData)
                   "w" (now 0%nat) (now 1%nat + hour_ms)) ;;
           sasToken <- await answer ;;
           ret (blob_url (blob_service_url (AzureConfig.accountName c))
                  (AzureConfig.containerName c) (fileName validatedData)
                ++ lit "?" ++ sasToken)
       | None =>
           match when_given (AzureConfig.sasToken c) with
           | Some sasToken =>
               ret (blob_url
                      (blob_service_url (AzureConfig.accountName c)
                       ++ lit "?" ++ sasToken)
                      (AzureConfig.containerName c) (fileName validatedData))
           | None =>
               throw (ErrorObj (lit "No authentication method provided"))
           end
       end ;;
     respond 200 (signed signedUrl))
    (on_error "AZURE_ERROR" (lit "Failed to generate Azure SAS URL")).

End Runtime.

End RequestRoutes.

End Server.

(** ** The request of [getPresignedUrl], as the server receives it

    [JSON.stringify({fileName, fileType, config: {provider, ...config}})]:
    a member that is [undefined] is left out. *)

Module BrokerRequest.
Import Uploader Server.





End BrokerRequest.

(** ** Properties *)

Module UploaderFacts.
Import Uploader.














(** *** URL intake *)

Lemma split_runs_nonempty sep b s : split_runs sep b s <> [].
Proof.
  revert b. induction s as [|c t IH]; intros b; cbn; [discriminate|].
  destruct (sep c).
  - destruct b; [apply IH|discriminate].
  - destruct (split_runs sep false t); discriminate.
Qed.

(** The pieces hold no separator. *)
Lemma split_runs_clean sep b s :
  Forall (Forall (fun c => sep c = false)) (split_runs sep b s).
Proof.
  revert b. induction s as [|c t IH]; intros b; cbn.
  - repeat constructor.
  - destruct (sep c) eqn:E.
    + destruct b; [apply IH|]. constructor; [constructor|apply IH].
    + specialize (IH false).
      destruct (split_runs sep false t) as [|piece pieces].
      * repeat constructor. exact E.
      * inversion IH; subst. constructor; [constructor|]; assumption.
Qed.

(** The pieces, in order, hold exactly the code units that are not
    separators. *)
Lemma split_runs_concat sep b s :
  concat (split_runs sep b s) = filter (fun c => negb (sep c)) s.
Proof.
  revert b. induction s as [|c t IH]; intros b; cbn; [reflexivity|].
  destruct (sep c) eqn:E; cbn.
  - destruct b; cbn; apply IH.
  - specialize (IH false).
    destruct (split_runs sep false t) as [|piece pieces]; cbn in *.
    + rewrite <- IH. reflexivity.
    + rewrite <- IH. reflexivity.
Qed.

Lemma remove_class_clean cls s :
  Forall (fun c => cls c = false) (remove_class cls s).
Proof.
  unfold remove_class. apply Forall_forall. intros c H.
  apply filter_In in H as [_ H]. apply negb_true_iff in H. exact H.
Qed.

Lemma jseqb_eq a b : jseqb a b = true <-> a = b.
Proof.
  revert b. induction a as [|x a IH]; destruct b as [|y b]; cbn;
    try (split; [discriminate|discriminate]); [tauto|].
  rewrite andb_true_iff, N.eqb_eq, IH.
  split; [intros [-> ->]; reflexivity|intros H; inversion H; auto].
Qed.

Lemma jseqb_refl a : jseqb a a = true.
Proof. apply jseqb_eq. reflexivity. Qed.




(** The parser used in examples: it knows the two prefixes [http://] and
    [https://] and rejects everything else. *)
Fixpoint starts_with (prefix s : jsstring) : bool :=
  match prefix, s with
  | [], _ => true
  | p :: prefix', c :: s' => (p =? c)%N && starts_with prefix' s'
  | _ :: _, [] => false
  end.

Definition prefix_protocol (u : jsstring) : option jsstring :=
  if starts_with (lit "https://") u then Some (lit "https:")
  else if starts_with (lit "http://") u then Some (lit "http:")
  else None.


(** *** The configuration predicate *)










(** An S3 configuration with the four fields of the specification. *)
Definition s3_filled_in : CloudConfig :=
  {| provider := Provider.s3;
     s3 := Some {| S3Config.bucket := lit "my-s3-bucket";
                   S3Config.region := lit "us-east-1";
                   S3Config.accessKeyId := lit "AKIAEXAMPLE";
                   S3Config.secretAccessKey := lit "secret";
                   S3Config.sessionToken := Some [];
                   S3Config.endpoint := Some [] |};
     gcp := None;
     azure := None |}.


(** *** Aggregate progress *)

Definition sum_Z (l : list Z) : Z := fold_right Z.add 0%Z l.

(** The arithmetic mean, 0 for the empty list. *)
Definition mean (l : list Z) : Q :=
  match l with
  | [] => 0%Q
  | _ :: _ => (inject_Z (sum_Z l) / inject_Z (Z.of_nat (length l)))%Q
  end.

Lemma total_progress_sum l :
  total_progress l = sum_Z (map progress l).
Proof.
  unfold total_progress.
  assert (G : forall acc,
             fold_left (fun sum item => (sum + progress item)%Z) l acc
             = (acc + sum_Z (map progress l))%Z).
  { unfold sum_Z.
    induction l as [|i l IH]; intros acc; cbn; [lia|]. rewrite IH. lia. }
  rewrite G. lia.
Qed.

Lemma Math_round_near (q : Q) :
  (q - (1 # 2) < inject_Z (Math_round q))%Q
  /\ (inject_Z (Math_round q) <= q + (1 # 2))%Q.
Proof.
  unfold Math_round. split.
  - pose proof (Qlt_floor (q + (1 # 2))) as H.
    rewrite inject_Z_plus in H. change (inject_Z 1) with 1%Q in H. lra.
  - apply Qfloor_le.
Qed.

Definition item_with_progress (p : Z) : UploadItem :=
  {| id := []; url := []; status := Status.pending; progress := p;
     error := None; fileName := None |}.

(** Three items, the first one done: progress 100, 0 and 0. *)
Definition one_of_three_done : UploadState :=
  {| items := [apply_patch to_success (item_with_progress 0);
               item_with_progress 0; item_with_progress 0];
     isUploading := true |}.

(** C8, as stated, fails: with progress values 100, 0 and 0 the mean is
    100/3 and [getOverallProgress] answers 33. *)
Lemma getOverallProgress_is_not_the_mean :
  getOverallProgress one_of_three_done = 33%Z
  /\ ~ (inject_Z (getOverallProgress one_of_three_done)
        == mean (map progress (items one_of_three_done)))%Q.
Proof.
  split; [reflexivity|]. vm_compute. discriminate.
Qed.

(** C8, amended. [getOverallProgress] is the arithmetic mean of the items'
    progress values rounded to the nearest integer, a tie going up: it lies
    within one half of the mean, and it is 0 when there is no item. *)
Theorem getOverallProgress_rounds_the_mean (uploadState : UploadState) :
  let m := mean (map progress (items uploadState)) in
  getOverallProgress uploadState = Math_round m
  /\ (m - (1 # 2) < inject_Z (getOverallProgress uploadState))%Q
  /\ (inject_Z (getOverallProgress uploadState) <= m + (1 # 2))%Q
  /\ getOverallProgress
       {| items := []; isUploading := isUploading uploadState |} = 0%Z.
Proof.
  cbn zeta.
  assert (E : getOverallProgress uploadState
              = Math_round (mean (map progress (items uploadState)))).
  { unfold getOverallProgress, mean.
    destruct (items uploadState) as [|i l] eqn:Hi; [reflexivity|].
    cbn [length map]. rewrite total_progress_sum, length_map.
    reflexivity. }
  rewrite E. split; [reflexivity|].
  split; [apply Math_round_near|]. split; [apply Math_round_near|reflexivity].
Qed.

End UploaderFacts.

(** ** The orchestrator *)

Module AsyncFacts.

Section Laws.
Context {E A B : Type}.

Lemma log_bind (m : M E A) (k : A -> M E B) :
  log (bind m k)
  = match outcome m with
    | inl _ => log m
    | inr a => log m ++ log (k a)
    end.
Proof.
  destruct m as [l [e|a]]; cbn; [reflexivity|].
  destruct (k a); reflexivity.
Qed.

Lemma outcome_bind (m : M E A) (k : A -> M E B) :
  outcome (bind m k)
  = match outcome m with
    | inl e => inl e
    | inr a => outcome (k a)
    end.
Proof.
  destruct m as [l [e|a]]; cbn; [reflexivity|].
  destruct (k a); reflexivity.
Qed.

Lemma log_try_catch (m : M E A) (h : thrown -> M E A) :
  log (try_catch m h)
  = match outcome m with
    | inl e => log m ++ log (h e)
    | inr _ => log m
    end.
Proof.
  destruct m as [l [e|a]]; cbn; [|reflexivity].
  destruct (h e); reflexivity.
Qed.

Lemma outcome_try_catch (m : M E A) (h : thrown -> M E A) :
  outcome (try_catch m h)
  = match outcome m with
    | inl e => outcome (h e)
    | inr a => inr a
    end.
Proof.
  destruct m as [l [e|a]]; cbn; [|reflexivity].
  destruct (h e); reflexivity.
Qed.

End Laws.

(** Runs the binds and the handlers of a computation whose awaited promises
    are known. *)
Ltac run_async :=
  repeat (rewrite ?log_bind, ?outcome_bind, ?log_try_catch,
            ?outcome_try_catch;
          cbn [log outcome emit ret throw await fst snd negb]).

End AsyncFacts.

Module OrchestratorFacts.
Import Uploader UploaderFacts AsyncFacts.

#[local] Arguments bind : simpl never.
#[local] Arguments try_catch : simpl never.

Lemma updates_app a b : updates (a ++ b) = updates a ++ updates b.
Proof. apply flat_map_app. Qed.

Lemma patches_app a b : patches (a ++ b) = patches a ++ patches b.
Proof. unfold patches. rewrite updates_app. apply flat_map_app. Qed.

Lemma source_fetches_app a b :
  source_fetches (a ++ b) = source_fetches a ++ source_fetches b.
Proof. apply flat_map_app. Qed.

(** The values the [progress] listener writes. *)
Definition progress_values (es : list ProgressEvent) : list Z :=
  flat_map
    (fun e =>
       if lengthComputable e then
         [Math_round
            ((inject_Z (Z.of_N (loaded e)) / inject_Z (Zpos (total e)))
             * inject_Z 100)%Q]
       else []) es.

Lemma getPresignedUrl_quiet c fileName fileType answer :
  updates (log (getPresignedUrl c fileName fileType answer)) = []
  /\ source_fetches (log (getPresignedUrl c fileName fileType answer)) = [].
Proof.
  unfold getPresignedUrl. run_async.
  repeat match goal with
         | |- context [match ?x with _ => _ end] => destruct x; run_async
         end; split; reflexivity.
Qed.

Lemma prepare_log c i x :
  updates (log (prepare c i x)) = [map_item (id i) to_uploading]
  /\ source_fetches (log (prepare c i x)) = [url i].
Proof.
  unfold prepare. run_async.
  destruct (source x) as [e|response]; run_async; [split; reflexivity|].
  destruct (ok response); run_async; [|split; reflexivity].
  destruct (blob response) as [e|blob']; run_async; [split; reflexivity|].
  match goal with
  | |- context [getPresignedUrl ?a ?b ?d ?e] =>
      destruct (getPresignedUrl_quiet a b d e) as [Hu Hf];
      destruct (outcome (getPresignedUrl a b d e))
  end; run_async;
    rewrite ?app_nil_r, ?updates_app, ?source_fetches_app, ?Hu, ?Hf;
    split; reflexivity.
Qed.

Lemma each_progress_log k es :
  updates (log (each_progress k es))
  = map (fun p => map_item k (to_progress p)) (progress_values es)
  /\ source_fetches (log (each_progress k es)) = []
  /\ outcome (each_progress k es) = inr tt.
Proof.
  induction es as [|e es (IHu & IHf & IHo)]; [repeat split|].
  cbn [each_progress progress_values flat_map]. unfold on_progress.
  destruct (lengthComputable e); run_async;
    rewrite ?updates_app, ?source_fetches_app, IHu, IHf, IHo;
    repeat split.
Qed.

(** What the [load] and [error] listeners do to the promise. *)
Definition transfer_result (upload_end : XhrEnd) : settled unit :=
  match upload_end with
  | xhr_load xhr_status =>
      if (xhr_status =? 200)%N || (xhr_status =? 201)%N then inr tt
      else inl (ErrorObj (lit "Upload failed: " ++ decimal xhr_status))
  | xhr_error => inl (ErrorObj (lit "Network error"))
  end.

Lemma uploadFileToCloud_log c file signedUrl k es upload_end :
  updates (log (uploadFileToCloud c file signedUrl k es upload_end))
  = map (fun p => map_item k (to_progress p)) (progress_values es)
  /\ source_fetches
       (log (uploadFileToCloud c file signedUrl k es upload_end)) = []
  /\ outcome (uploadFileToCloud c file signedUrl k es upload_end)
     = transfer_result upload_end.
Proof.
  destruct (each_progress_log k es) as (Hu & Hf & Ho).
  unfold uploadFileToCloud, transfer_result. run_async. rewrite Ho. run_async.
  destruct upload_end as [xhr_status|];
    [destruct ((xhr_status =? 200)%N || (xhr_status =? 201)%N)|];
    run_async; rewrite ?app_nil_r;
    change (?e :: log ?m) with ([e] ++ log m);
    rewrite updates_app, source_fetches_app, Hu, Hf; repeat split.
Qed.

(** The patches [processUpload] applies to its item. *)
Definition item_patches (c : CloudConfig) (i : UploadItem) (x : Exchange)
  : list patch :=
  to_uploading
  :: match outcome (prepare c i x) with
     | inl e => [to_error (message_of e)]
     | inr _ =>
         map to_progress (progress_values (upload_progress x))
         ++ [match transfer_result (upload_end x) with
             | inl e => to_error (message_of e)
             | inr _ => to_success
             end]
     end.

Lemma attempt_outcome c i x :
  outcome (attempt c i x)
  = match outcome (prepare c i x) with
    | inl e => inl e
    | inr _ => transfer_result (upload_end x)
    end.
Proof.
  unfold attempt. run_async.
  destruct (outcome (prepare c i x)) as [e|ready]; [reflexivity|].
  run_async.
  destruct (uploadFileToCloud_log c (fst ready) (snd ready) (id i)
              (upload_progress x) (upload_end x)) as (_ & _ & Ho).
  rewrite Ho. destruct (transfer_result (upload_end x)) as [e|[]]; reflexivity.
Qed.

Lemma processUpload_log c i x :
  updates (log (processUpload c i x))
  = map (map_item (id i)) (item_patches c i x)
  /\ source_fetches (log (processUpload c i x)) = [url i]
  /\ outcome (processUpload c i x) = inr tt.
Proof.
  destruct (prepare_log c i x) as (Pu & Pf).
  unfold processUpload. run_async. rewrite attempt_outcome.
  unfold attempt, item_patches. run_async.
  destruct (outcome (prepare c i x)) as [e|ready]; run_async.
  - rewrite updates_app, source_fetches_app, Pu, Pf. repeat split.
  - destruct (uploadFileToCloud_log c (fst ready) (snd ready) (id i)
                (upload_progress x) (upload_end x)) as (Uu & Uf & Uo).
    rewrite Uo.
    destruct (transfer_result (upload_end x)) as [e|[]]; run_async;
      rewrite ?app_nil_r, !updates_app, !source_fetches_app, ?Pu, ?Pf,
        ?Uu, ?Uf; cbn [updates source_fetches flat_map app map];
      rewrite ?map_app, ?map_map, ?app_nil_r; repeat split.
Qed.

(** *** Item identifiers *)

Lemma lit_inj a b : lit a = lit b -> a = b.
Proof.
  unfold lit. intros H.
  rewrite <- (string_of_list_ascii_of_string a),
    <- (string_of_list_ascii_of_string b).
  f_equal.
  revert H. generalize (list_ascii_of_string a) (list_ascii_of_string b).
  intros l. induction l as [|x l IH]; intros l0; destruct l0 as [|y l0];
    cbn; intros H; try discriminate; [reflexivity|].
  inversion H as [[Hx Hl]]. f_equal; [|auto].
  rewrite <- (ascii_N_embedding x), <- (ascii_N_embedding y), Hx.
  reflexivity.
Qed.

Lemma decimal_inj a b : decimal a = decimal b -> a = b.
Proof.
  unfold decimal. intros H. apply lit_inj in H.
  assert (E : Some (N.to_uint a) = Some (N.to_uint b)).
  { rewrite <- !NilEmpty.usu. rewrite H. reflexivity. }
  inversion E as [E'].
  rewrite <- (DecimalN.Unsigned.of_to a), <- (DecimalN.Unsigned.of_to b), E'.
  reflexivity.
Qed.

Lemma decimal_no_dash n : ~ In 45%N (decimal n).
Proof.
  unfold decimal. generalize (N.to_uint n). intros d.
  induction d; cbn; intros H; try (destruct H as [H|H]; [discriminate|]);
    auto.
Qed.

Lemma split_at_dash (a a' b b' : jsstring) :
  a ++ 45%N :: b = a' ++ 45%N :: b' ->
  ~ In 45%N a -> ~ In 45%N a' -> a = a' /\ b = b'.
Proof.
  revert a'. induction a as [|x a IH]; destruct a' as [|y a']; cbn;
    intros H Ha Ha'.
  - inversion H. auto.
  - inversion H; subst. tauto.
  - inversion H; subst. tauto.
  - inversion H; subst. destruct (IH a') as [-> ->]; auto.
Qed.

(** [`${Date.now()}-${index}`]. *)
Definition item_id (now : nat -> N) (index : nat) : jsstring :=
  decimal (now index) ++ lit "-" ++ decimal (N.of_nat index).

Lemma item_id_inj now i j : item_id now i = item_id now j -> i = j.
Proof.
  unfold item_id. cbn [lit list_ascii_of_string map app].
  change (N_of_ascii "-") with 45%N. intros H.
  apply split_at_dash in H as [_ H]; try apply decimal_no_dash.
  apply decimal_inj in H. lia.
Qed.

Lemma new_items_ids now k urls :
  map id (new_items now k urls) = map (item_id now) (seq k (length urls)).
Proof.
  revert k. induction urls as [|u urls IH]; intros k; [reflexivity|].
  cbn. f_equal. apply IH.
Qed.

Lemma new_items_NoDup now k urls : NoDup (map id (new_items now k urls)).
Proof.
  rewrite new_items_ids. apply Injective_map_NoDup.
  - intros i j. apply item_id_inj.
  - apply seq_NoDup.
Qed.

Lemma new_items_url now k urls : map url (new_items now k urls) = urls.
Proof.
  revert k. induction urls as [|u urls IH]; intros k; [reflexivity|].
  cbn. f_equal. apply IH.
Qed.

Lemma new_items_pending now k urls :
  Forall (fun i => status i = Status.pending /\ progress i = 0%Z)
    (new_items now k urls).
Proof.
  revert k. induction urls as [|u urls IH]; intros k; constructor;
    [split; reflexivity|apply IH].
Qed.

(** *** A patch touches one item *)

Lemma apply_patch_id f i : id (apply_patch f i) = id i.
Proof. destruct f; reflexivity. Qed.

Lemma apply_patch_url f i : url (apply_patch f i) = url i.
Proof. destruct f; reflexivity. Qed.

Definition patch_items (k : jsstring) (f : patch) (l : list UploadItem) :=
  map (fun i => if jseqb (id i) k then apply_patch f i else i) l.

Lemma patch_items_fresh k f l : ~ In k (map id l) -> patch_items k f l = l.
Proof.
  induction l as [|i l IH]; cbn; intros H; [reflexivity|].
  destruct (jseqb (id i) k) eqn:E.
  - apply jseqb_eq in E. tauto.
  - f_equal. apply IH. tauto.
Qed.

Lemma patch_items_focus f done c todo :
  ~ In (id c) (map id done) -> ~ In (id c) (map id todo) ->
  patch_items (id c) f (done ++ c :: todo) = done ++ apply_patch f c :: todo.
Proof.
  intros Hd Ht. unfold patch_items. rewrite map_app. cbn [map].
  rewrite jseqb_refl. f_equal; [|f_equal].
  - apply (patch_items_fresh (id c) f done Hd).
  - apply (patch_items_fresh (id c) f todo Ht).
Qed.

Definition item_final (c : UploadItem) (fs : list patch) : UploadItem :=
  fold_left (fun i f => apply_patch f i) fs c.

Lemma item_final_id c fs : id (item_final c fs) = id c.
Proof.
  revert c. induction fs as [|f fs IH]; intros c; [reflexivity|].
  change (item_final c (f :: fs)) with (item_final (apply_patch f c) fs).
  rewrite IH. apply apply_patch_id.
Qed.

Lemma item_final_url c fs : url (item_final c fs) = url c.
Proof.
  revert c. induction fs as [|f fs IH]; intros c; [reflexivity|].
  change (item_final c (f :: fs)) with (item_final (apply_patch f c) fs).
  rewrite IH. apply apply_patch_url.
Qed.

Definition around (done todo : list UploadItem) (b : bool) (c : UploadItem)
  : UploadState :=
  {| items := done ++ c :: todo; isUploading := b |}.

Lemma trajectory_focus done todo b fs c :
  ~ In (id c) (map id done) -> ~ In (id c) (map id todo) ->
  trajectory (around done todo b c) (map (map_item (id c)) fs)
  = map (around done todo b) (item_trajectory c fs)
  /\ fold_left (fun prev u => apply_update u prev)
       (map (map_item (id c)) fs) (around done todo b c)
     = around done todo b (item_final c fs).
Proof.
  intros Hd Ht. revert c Hd Ht.
  induction fs as [|f fs IH]; intros c Hd Ht; [split; reflexivity|].
  assert (E : apply_update (map_item (id c) f) (around done todo b c)
              = around done todo b (apply_patch f c)).
  { unfold around. cbn.
    change (map _ (done ++ c :: todo))
      with (patch_items (id c) f (done ++ c :: todo)).
    rewrite patch_items_focus by assumption. reflexivity. }
  cbn [map trajectory fold_left item_trajectory item_final].
  rewrite E.
  rewrite <- (apply_patch_id f c) in *.
  destruct (IH (apply_patch f c) Hd Ht) as [IH1 IH2].
  rewrite IH1, IH2. split; reflexivity.
Qed.

Lemma trajectory_app st us1 us2 :
  trajectory st (us1 ++ us2)
  = trajectory st us1
    ++ trajectory (fold_left (fun prev u => apply_update u prev) us1 st) us2.
Proof.
  revert st. induction us1 as [|u us1 IH]; intros st; [reflexivity|].
  cbn. rewrite IH. reflexivity.
Qed.

Lemma settle_final c i x : settle c i x = item_final i (item_patches c i x).
Proof.
  unfold settle, final.
  destruct (processUpload_log c i x) as (-> & _ & _).
  destruct (trajectory_focus [] [] true (item_patches c i x) i) as [_ E];
    [intros []..|].
  unfold around in E. cbn [app] in E. rewrite E. reflexivity.
Qed.

(** *** A batch, item after item *)

Fixpoint settle_each (c : CloudConfig) (world : nat -> Exchange) (k : nat)
  (l : list UploadItem) : list UploadItem :=
  match l with
  | [] => []
  | i :: rest => settle c i (world k) :: settle_each c world (S k) rest
  end.

(** The item lists an observer sees while [process_each] runs on [todo],
    the items of [done] standing before them. *)
Fixpoint batch_trajectory (c : CloudConfig) (world : nat -> Exchange)
  (k : nat) (done todo : list UploadItem) : list (list UploadItem) :=
  match todo with
  | [] => []
  | i :: rest =>
      map (fun i' => done ++ i' :: rest)
        (item_trajectory i (item_patches c i (world k)))
      ++ batch_trajectory c world (S k) (done ++ [settle c i (world k)]) rest
  end.

Definition with_items (b : bool) (l : list UploadItem) : UploadState :=
  {| items := l; isUploading := b |}.

Lemma NoDup_focus (done todo : list UploadItem) i :
  NoDup (map id (done ++ i :: todo)) ->
  ~ In (id i) (map id done) /\ ~ In (id i) (map id todo).
Proof.
  rewrite map_app. cbn [map]. intros H.
  apply NoDup_remove_2 in H. rewrite in_app_iff in H. tauto.
Qed.

Lemma process_each_run c world todo :
  forall k done b,
    NoDup (map id (done ++ todo)) ->
    observable (with_items b (done ++ todo))
      (log (process_each c world k todo))
    = map (with_items b) (batch_trajectory c world k done todo)
    /\ final (with_items b (done ++ todo)) (log (process_each c world k todo))
       = with_items b (done ++ settle_each c world k todo)
    /\ source_fetches (log (process_each c world k todo)) = map url todo
    /\ outcome (process_each c world k todo) = inr tt.
Proof.
  induction todo as [|i rest IH]; intros k done b ND.
  - cbn. rewrite app_nil_r. repeat split.
  - destruct (NoDup_focus done rest i ND) as [Hd Ht].
    destruct (processUpload_log c i (world k)) as (Pu & Pf & Po).
    destruct (trajectory_focus done rest b (item_patches c i (world k)) i
                Hd Ht) as [T1 T2].
    assert (ND' : NoDup (map id ((done ++ [settle c i (world k)]) ++ rest))).
    { rewrite <- app_assoc, !map_app. cbn [map app].
      rewrite settle_final, item_final_id.
      rewrite map_app in ND. exact ND. }
    destruct (IH (S k) (done ++ [settle c i (world k)]) b ND')
      as (I1 & I2 & I3 & I4).
    rewrite <- app_assoc in I1, I2. cbn [app] in I1, I2.
    unfold observable, final in *.
    cbn [process_each batch_trajectory settle_each]. run_async.
    rewrite Po. rewrite updates_app, source_fetches_app, Pu, Pf.
    rewrite trajectory_app, fold_left_app.
    change (with_items b (done ++ i :: rest)) with (around done rest b i).
    rewrite T1, !T2.
    change (around done rest b (item_final i (item_patches c i (world k))))
      with (with_items b
              (done ++ item_final i (item_patches c i (world k)) :: rest)).
    rewrite <- settle_final.
    rewrite I1, I2, I3, I4, map_app, map_map.
    repeat split. rewrite <- app_assoc. reflexivity.
Qed.

(** *** The state of an item while and after it is processed *)

Definition in_flight (i : UploadItem) : Prop := status i = Status.uploading.

Definition well_settled (i : UploadItem) : Prop :=
  (status i = Status.success /\ progress i = 100%Z)
  \/ (status i = Status.error /\ progress i = 0%Z
      /\ exists message, error i = Some message).

Definition is_pending (i : UploadItem) : Prop := status i = Status.pending.

Lemma item_patches_shape c i x :
  exists ps last,
    item_patches c i x = to_uploading :: map to_progress ps ++ [last]
    /\ (last = to_success \/ exists message, last = to_error message).
Proof.
  unfold item_patches. destruct (outcome (prepare c i x)) as [e|ready].
  - exists [], (to_error (message_of e)). split; [reflexivity|eauto].
  - exists (progress_values (upload_progress x)). eexists.
    split; [reflexivity|].
    destruct (transfer_result (upload_end x)); eauto.
Qed.

Lemma progress_trajectory i ps last :
  in_flight i ->
  (last = to_success \/ exists message, last = to_error message) ->
  Forall (fun i' => in_flight i' \/ well_settled i')
    (item_trajectory i (map to_progress ps ++ [last]))
  /\ well_settled (item_final i (map to_progress ps ++ [last])).
Proof.
  intros Hi Hl. revert i Hi.
  induction ps as [|p ps IH]; intros i Hi.
  - cbn. assert (W : well_settled (apply_patch last i)).
    { destruct Hl as [->|[m ->]]; [left|right]; cbn; eauto. }
    split; [constructor; [right; exact W|constructor]|exact W].
  - cbn [map app item_trajectory].
    change (item_final i (to_progress p :: map to_progress ps ++ [last]))
      with (item_final (apply_patch (to_progress p) i)
              (map to_progress ps ++ [last])).
    destruct (IH (apply_patch (to_progress p) i) Hi) as [IH1 IH2].
    split; [constructor; [left; exact Hi|exact IH1]|exact IH2].
Qed.

Lemma item_trajectory_states c i x :
  Forall (fun i' => in_flight i' \/ well_settled i')
    (item_trajectory i (item_patches c i x))
  /\ well_settled (settle c i x).
Proof.
  rewrite settle_final.
  destruct (item_patches_shape c i x) as (ps & last & -> & Hl).
  cbn [item_trajectory].
  change (item_final i (to_uploading :: map to_progress ps ++ [last]))
    with (item_final (apply_patch to_uploading i)
            (map to_progress ps ++ [last])).
  destruct (progress_trajectory (apply_patch to_uploading i) ps last
              eq_refl Hl) as [T W].
  split; [constructor; [left; reflexivity|exact T]|exact W].
Qed.

Lemma item_trajectory_url i fs :
  Forall (fun i' => url i' = url i) (item_trajectory i fs).
Proof.
  revert i. induction fs as [|f fs IH]; intros i; constructor.
  - apply apply_patch_url.
  - eapply Forall_impl; [|apply IH]. cbn. intros i' ->.
    apply apply_patch_url.
Qed.

(** *** The order of a batch

    A list of items is in order when it is made of settled items, then at
    most one item that is pending or in flight, then pending items only. *)

Inductive in_order : list UploadItem -> Prop :=
| order_nil : in_order []
| order_settled i l : well_settled i -> in_order l -> in_order (i :: l)
| order_current i l :
    is_pending i \/ in_flight i -> Forall is_pending l -> in_order (i :: l).

(** Item [n+1] has left [pending] only if item [n] is settled. *)
Definition sequential (l : list UploadItem) : Prop :=
  forall n a b,
    nth_error l n = Some a -> nth_error l (S n) = Some b ->
    status b <> Status.pending ->
    status a = Status.success \/ status a = Status.error.

(** A failed item has progress 0 and a message. *)
Definition failed_at_zero (i : UploadItem) : Prop :=
  status i = Status.error ->
  progress i = 0%Z /\ exists message, error i = Some message.

Lemma in_order_pending l : Forall is_pending l -> in_order l.
Proof.
  intros H. destruct H as [|i l Hi Hl]; [constructor|].
  apply order_current; [left; exact Hi|exact Hl].
Qed.

Lemma in_order_app done l :
  Forall well_settled done -> in_order l -> in_order (done ++ l).
Proof.
  induction 1 as [|i done Hi _ IH]; intros Hl; [exact Hl|].
  cbn. apply order_settled; auto.
Qed.

Lemma in_order_sequential l : in_order l -> sequential l.
Proof.
  induction 1 as [|i l Hi _ IH|i l Hi Hl]; intros n a b Ha Hb Hp.
  - destruct n; discriminate.
  - destruct n as [|n].
    + cbn in Ha. inversion Ha; subst.
      destruct Hi as [[-> _]|[-> _]]; auto.
    + exact (IH n a b Ha Hb Hp).
  - cbn in Hb. apply nth_error_In in Hb.
    rewrite Forall_forall in Hl. elim Hp. exact (Hl b Hb).
Qed.

Lemma in_order_failed_at_zero l : in_order l -> Forall failed_at_zero l.
Proof.
  induction 1 as [|i l Hi _ IH|i l Hi Hl].
  - constructor.
  - constructor; [|exact IH]. intros E.
    destruct Hi as [[S _]|(_ & P & M)]; [congruence|auto].
  - constructor.
    + intros E. destruct Hi as [Hi|Hi]; red in Hi; congruence.
    + eapply Forall_impl; [|exact Hl]. intros j Hj E. red in Hj. congruence.
Qed.

Lemma settle_each_settled c world l :
  forall k, Forall well_settled (settle_each c world k l).
Proof.
  induction l as [|i l IH]; intros k; constructor; [|apply IH].
  apply item_trajectory_states.
Qed.

Lemma settle_each_url c world l :
  forall k, map url (settle_each c world k l) = map url l.
Proof.
  induction l as [|i l IH]; intros k; [reflexivity|].
  cbn. rewrite IH, settle_final, item_final_url. reflexivity.
Qed.

Lemma settle_each_nth c world l :
  forall k n,
    nth_error (settle_each c world k l) n
    = option_map (fun i => settle c i (world (k + n))) (nth_error l n).
Proof.
  induction l as [|i l IH]; intros k n; [destruct n; reflexivity|].
  destruct n as [|n]; cbn.
  - rewrite Nat.add_0_r. reflexivity.
  - rewrite IH. rewrite Nat.add_succ_r. reflexivity.
Qed.

Lemma batch_trajectory_in_order c world todo :
  forall k done,
    Forall well_settled done -> Forall is_pending todo ->
    Forall in_order (batch_trajectory c world k done todo).
Proof.
  induction todo as [|i rest IH]; intros k done Hd Ht; [constructor|].
  inversion Ht as [|? ? Hi Hr]; subst.
  destruct (item_trajectory_states c i (world k)) as [T W].
  cbn [batch_trajectory]. apply Forall_app. split.
  - apply Forall_map. eapply Forall_impl; [|exact T].
    intros i' [F|S]; apply in_order_app; try assumption.
    + apply order_current; [right; exact F|exact Hr].
    + apply order_settled; [exact S|apply in_order_pending; exact Hr].
  - apply IH; [|exact Hr]. apply Forall_app. split; [exact Hd|].
    constructor; [exact W|constructor].
Qed.

Lemma batch_trajectory_urls c world todo :
  forall k done,
    Forall (fun l => map url l = map url (done ++ todo))
      (batch_trajectory c world k done todo).
Proof.
  induction todo as [|i rest IH]; intros k done; [constructor|].
  cbn [batch_trajectory]. apply Forall_app. split.
  - apply Forall_map.
    eapply Forall_impl; [|apply item_trajectory_url].
    cbn. intros i' E. rewrite !map_app. cbn. rewrite E. reflexivity.
  - eapply Forall_impl; [|apply IH]. cbn. intros l ->.
    rewrite <- app_assoc, !map_app. cbn.
    rewrite settle_final, item_final_url. reflexivity.
Qed.

(** *** A whole batch *)

(** What the three handlers do once the items are made. *)
Definition run_batch (c : CloudConfig) (world : nat -> Exchange)
  (batch : list UploadItem) : M event unit :=
  (emit (setUploadState
           (set_state {| items := batch; isUploading := true |})) ;;
   process_each c world 0 batch ;;
   emit (setUploadState (set_isUploading false)))%async.

(** The states an observer sees during [run_batch]. *)
Definition batch_states (c : CloudConfig) (world : nat -> Exchange)
  (batch : list UploadItem) : list UploadState :=
  with_items true batch
  :: map (with_items true) (batch_trajectory c world 0 [] batch)
  ++ [with_items false (settle_each c world 0 batch)].

Lemma run_batch_run c world batch st0 :
  NoDup (map id batch) ->
  observable st0 (log (run_batch c world batch)) = batch_states c world batch
  /\ final st0 (log (run_batch c world batch))
     = with_items false (settle_each c world 0 batch)
  /\ source_fetches (log (run_batch c world batch)) = map url batch
  /\ outcome (run_batch c world batch) = inr tt.
Proof.
  intros ND.
  destruct (process_each_run c world batch 0 [] true ND) as (R1 & R2 & R3 & R4).
  cbn [app] in R1, R2.
  unfold run_batch, batch_states, observable, final in *. run_async.
  rewrite R4. run_async.
  change (?e :: log ?m ++ ?r) with ([e] ++ log m ++ r).
  rewrite !updates_app, !source_fetches_app, R3.
  cbn [updates source_fetches flat_map app trajectory fold_left
         apply_update].
  fold (with_items true batch).
  rewrite trajectory_app, fold_left_app, R1, R2.
  cbn [trajectory fold_left apply_update with_items items isUploading].
  rewrite app_nil_r. repeat split.
Qed.

Lemma batch_states_in_order c world batch :
  Forall is_pending batch ->
  Forall (fun st => in_order (items st)) (batch_states c world batch).
Proof.
  intros P. unfold batch_states. constructor; [|apply Forall_app; split].
  - apply in_order_pending. exact P.
  - apply Forall_map. apply batch_trajectory_in_order; [constructor|exact P].
  - constructor; [|constructor]. cbn.
    rewrite <- (app_nil_r (settle_each c world 0 batch)).
    apply in_order_app; [apply settle_each_settled|constructor].
Qed.

Lemma batch_states_urls c world batch :
  Forall (fun st => map url (items st) = map url batch)
    (batch_states c world batch).
Proof.
  unfold batch_states. constructor; [|apply Forall_app; split].
  - reflexivity.
  - apply Forall_map. apply (batch_trajectory_urls c world batch 0 []).
  - constructor; [|constructor]. apply settle_each_url.
Qed.

(** *** The three handlers *)

Section Handlers.
Variable URL_protocol : jsstring -> option jsstring.
Variable c : CloudConfig.

Lemma handleBulkUpload_run input now world st0 :
  let h := handleBulkUpload URL_protocol c input now world in
  let urls := parseUrls URL_protocol input in
  let batch := new_items now 0 urls in
  observable st0 (log h)
  = match urls with [] => [] | _ :: _ => batch_states c world batch end
  /\ final st0 (log h)
     = match urls with
       | [] => st0
       | _ :: _ => with_items false (settle_each c world 0 batch)
       end
  /\ source_fetches (log h) = urls
  /\ outcome h = inr tt.
Proof.
  cbn zeta. unfold handleBulkUpload.
  destruct (parseUrls URL_protocol input) as [|u urls] eqn:E;
    [repeat split|].
  destruct (run_batch_run c world (new_items now 0 (u :: urls)) st0
              (new_items_NoDup now 0 (u :: urls))) as (R1 & R2 & R3 & R4).
  rewrite new_items_url in R3. unfold run_batch in *. repeat split; assumption.
Qed.

(** The text of the chosen file, when there is a file and it can be read. *)
Definition file_urls (file : option (settled jsstring)) : list jsstring :=
  match file with
  | Some (inr text) => parseUrls URL_protocol text
  | _ => []
  end.

Lemma handleFileUpload_run file now world st0 :
  let h := handleFileUpload URL_protocol c file now world in
  let urls := file_urls file in
  let batch := new_items now 0 urls in
  observable st0 (log h)
  = match urls with [] => [] | _ :: _ => batch_states c world batch end
  /\ final st0 (log h)
     = match urls with
       | [] => st0
       | _ :: _ => with_items false (settle_each c world 0 batch)
       end
  /\ source_fetches (log h) = urls
  /\ outcome h = inr tt.
Proof.
  cbn zeta. unfold file_urls.
  destruct file as [[e|text]|]; [repeat split| |repeat split].
  change (handleFileUpload URL_protocol c (Some (inr text)) now world)
    with (try_catch
            (text' <- await (inr text) ;;
             match parseUrls URL_protocol text' with
             | [] => throw (ErrorObj (lit "No valid URLs found in file"))
             | _ :: _ =>
                 run_batch c world
                   (new_items now 0 (parseUrls URL_protocol text'))
             end)%async
            (fun _ => emit console_error)).
  run_async.
  destruct (parseUrls URL_protocol text) as [|u urls] eqn:E; run_async;
    [repeat split|].
  destruct (run_batch_run c world (new_items now 0 (u :: urls)) st0
              (new_items_NoDup now 0 (u :: urls))) as (R1 & R2 & R3 & R4).
  rewrite new_items_url in R3. rewrite R4. cbn [app].
  repeat split; assumption.
Qed.

(** The item of [handleSingleUpload]. *)
Definition single_item (singleUrl : jsstring) (now : N) : list UploadItem :=
  if isValidUrl URL_protocol (sanitizeUrl singleUrl) then
    [{| id := decimal now; url := sanitizeUrl singleUrl;
        status := Status.pending; progress := 0;
        error := None; fileName := None |}]
  else [].

Lemma handleSingleUpload_run singleUrl now x st0 :
  let h := handleSingleUpload URL_protocol c singleUrl now x in
  let batch := single_item singleUrl now in
  observable st0 (log h)
  = match batch with
    | [] => []
    | _ :: _ => batch_states c (fun _ => x) batch
    end
  /\ final st0 (log h)
     = match batch with
       | [] => st0
       | _ :: _ => with_items false (settle_each c (fun _ => x) 0 batch)
       end
  /\ source_fetches (log h) = map url batch
  /\ outcome h = inr tt.
Proof.
  cbn zeta. unfold handleSingleUpload, single_item.
  destruct (isValidUrl URL_protocol (sanitizeUrl singleUrl));
    cbn [negb]; [|repeat split].
  set (item := {| id := decimal now; url := sanitizeUrl singleUrl;
                  status := Status.pending; progress := 0;
                  error := None; fileName := None |}).
  assert (ND : NoDup (map id [item])) by (repeat constructor; intros []).
  destruct (run_batch_run c (fun _ => x) [item] st0 ND) as (R1 & R2 & R3 & R4).
  destruct (processUpload_log c item x) as (_ & _ & Po).
  assert (L : log (emit (setUploadState
                           (set_state {| items := [item];
                                         isUploading := true |})) ;;
                   processUpload c item x ;;
                   emit (setUploadState (set_isUploading false)))%async
              = log (run_batch c (fun _ => x) [item])).
  { unfold run_batch. cbn [process_each]. run_async. rewrite Po. run_async.
    rewrite app_nil_r. reflexivity. }
  rewrite L. repeat split; try assumption.
  run_async. rewrite Po. reflexivity.
Qed.

End Handlers.

(** *** Removals while a batch runs

    The cross of an item queues [removeItem] between the updates of the
    orchestrator.  The order of the batch survives it. *)

(** [vs] is [us] with removals put in anywhere. *)
Inductive with_removals : list update -> list update -> Prop :=
| removals_nil : with_removals [] []
| removals_keep u us vs :
    with_removals us vs -> with_removals (u :: us) (u :: vs)
| removals_remove itemId us vs :
    with_removals us vs -> with_removals us (removeItem itemId :: vs).

(** [st'] is [st] without the items whose identifier [keep] refuses. *)
Definition thinned (st st' : UploadState) : Prop :=
  isUploading st' = isUploading st
  /\ exists keep : jsstring -> bool,
       items st' = filter (fun i => keep (id i)) (items st).

Lemma filter_map_by_id (keep : jsstring -> bool)
  (g : UploadItem -> UploadItem) l :
  (forall i, id (g i) = id i) ->
  filter (fun i => keep (id i)) (map g l)
  = map g (filter (fun i => keep (id i)) l).
Proof.
  intros G. induction l as [|i l IH]; [reflexivity|].
  cbn. rewrite G. destruct (keep (id i)); cbn; rewrite IH; reflexivity.
Qed.

Lemma filter_filter {A} (f g : A -> bool) l :
  filter f (filter g l) = filter (fun x => g x && f x) l.
Proof.
  induction l as [|x l IH]; [reflexivity|].
  cbn. destruct (g x); cbn; [destruct (f x)|]; rewrite IH; reflexivity.
Qed.

Lemma thinned_update u st st' :
  thinned st st' -> thinned (apply_update u st) (apply_update u st').
Proof.
  intros [B [keep K]]. destruct u as [st1|k f|b|k]; unfold thinned; cbn.
  - split; [reflexivity|]. exists (fun _ => true).
    symmetry. apply forallb_filter_id. apply forallb_forall. reflexivity.
  - split; [exact B|]. exists keep. rewrite K.
    symmetry. apply filter_map_by_id.
    intros i. destruct (jseqb (id i) k); [apply apply_patch_id|reflexivity].
  - split; [reflexivity|]. exists keep. exact K.
  - split; [exact B|]. exists keep. rewrite K.
    rewrite !filter_filter.
    apply filter_ext. intros i. apply andb_comm.
Qed.

Lemma thinned_remove k st st' :
  thinned st st' -> thinned st (apply_update (removeItem k) st').
Proof.
  intros [B [keep K]]. unfold thinned. cbn. split; [exact B|].
  exists (fun j => keep j && negb (jseqb j k)). rewrite K.
  apply filter_filter.
Qed.

Lemma with_removals_thinned us vs :
  with_removals us vs ->
  forall st st',
    thinned st st' ->
    Forall (fun s' => exists s, In s (st :: trajectory st us) /\ thinned s s')
      (trajectory st' vs).
Proof.
  induction 1 as [|u us vs _ IH|k us vs _ IH]; intros st st' T.
  - constructor.
  - cbn [trajectory]. constructor.
    + exists (apply_update u st). split; [right; left; reflexivity|].
      apply thinned_update. exact T.
    + eapply Forall_impl;
        [|apply (IH (apply_update u st) (apply_update u st'));
          apply thinned_update; exact T].
      intros s' (s & Hs & Ts). exists s. split; [right; exact Hs|exact Ts].
  - cbn [trajectory]. constructor.
    + exists st. split; [left; reflexivity|].
      apply thinned_remove. exact T.
    + apply IH. apply thinned_remove. exact T.
Qed.

Lemma in_order_filter (keep : UploadItem -> bool) l :
  in_order l -> in_order (filter keep l).
Proof.
  induction 1 as [|i l Hi _ IH|i l Hi Hl]; cbn.
  - constructor.
  - destruct (keep i); [apply order_settled; assumption|exact IH].
  - assert (P : Forall is_pending (filter keep l)).
    { apply Forall_forall. intros j Hj. apply filter_In in Hj as [Hj _].
      rewrite Forall_forall in Hl. auto. }
    destruct (keep i); [apply order_current; assumption|].
    apply in_order_pending. exact P.
Qed.

(** From the moment the batch is installed, whatever items the user removes
    and whenever, every state is in order. *)
Lemma removals_keep_the_order c world batch vs :
  NoDup (map id batch) -> Forall is_pending batch ->
  with_removals
    (updates (log (process_each c world 0 batch)) ++ [set_isUploading false])
    vs ->
  Forall (fun st => in_order (items st) /\ sequential (items st)
                    /\ Forall failed_at_zero (items st))
    (trajectory (with_items true batch) vs).
Proof.
  intros ND P W.
  destruct (run_batch_run c world batch (with_items true batch) ND)
    as (R & _).
  pose proof (batch_states_in_order c world batch P) as O.
  rewrite <- R in O. clear R.
  assert (E : observable (with_items true batch)
                (log (run_batch c world batch))
              = with_items true batch
                :: trajectory (with_items true batch)
                     (updates (log (process_each c world 0 batch))
                      ++ [set_isUploading false])).
  { destruct (process_each_run c world batch 0 [] true ND)
      as (_ & _ & _ & Po).
    unfold run_batch, observable. run_async. rewrite Po. run_async.
    change (?e :: log ?m ++ ?r) with ([e] ++ log m ++ r).
    rewrite !updates_app. reflexivity. }
  rewrite E in O. clear E.
  pose proof (with_removals_thinned _ _ W (with_items true batch)
                (with_items true batch)) as T.
  eapply Forall_impl; [|apply T].
  - intros s' (s & Hs & _ & keep & K).
    rewrite Forall_forall in O. specialize (O s Hs).
    assert (O' : in_order (items s')).
    { rewrite K. apply in_order_filter. exact O. }
    repeat split;
      [exact O'|apply in_order_sequential|apply in_order_failed_at_zero];
      exact O'.
  - split; [reflexivity|]. exists (fun _ => true).
    symmetry. apply forallb_filter_id. apply forallb_forall. reflexivity.
Qed.

(** *** How an item ends *)

Definition failed_item (i : UploadItem) (e : thrown) : UploadItem :=
  {| id := id i; url := url i; status := Status.error; progress := 0;
     error := Some (message_of e); fileName := fileName i |}.

Definition succeeded_item (i : UploadItem) : UploadItem :=
  {| id := id i; url := url i; status := Status.success; progress := 100;
     error := error i; fileName := fileName i |}.

Lemma item_final_last i ps last :
  (last = to_success \/ exists message, last = to_error message) ->
  item_final i (map to_progress ps ++ [last]) = apply_patch last i.
Proof.
  intros Hl. revert i. induction ps as [|p ps IH]; intros i; [reflexivity|].
  change (item_final i (map to_progress (p :: ps) ++ [last]))
    with (item_final (apply_patch (to_progress p) i)
            (map to_progress ps ++ [last])).
  rewrite IH. destruct Hl as [->|[m ->]]; reflexivity.
Qed.

Lemma settle_outcome c i x :
  settle c i x
  = match outcome (attempt c i x) with
    | inl e => failed_item i e
    | inr _ => succeeded_item i
    end.
Proof.
  rewrite settle_final, attempt_outcome. unfold item_patches.
  destruct (outcome (prepare c i x)) as [e|ready]; [reflexivity|].
  change (item_final i (to_uploading :: ?l))
    with (item_final (apply_patch to_uploading i) l).
  rewrite item_final_last.
  - destruct (transfer_result (upload_end x)); reflexivity.
  - destruct (transfer_result (upload_end x)); eauto.
Qed.

(** The name under which [processUpload] stores the item. *)
Definition stored_name (i : UploadItem) : jsstring :=
  sanitizeFileName
    (or_else (fileName i)
       (or_else (Some (split_pop 47%N (url i))) (lit "uploaded-file"))).

(** The three ways an item can fail, and the one way it can succeed. *)
Definition attempt_result (c : CloudConfig) (i : UploadItem) (x : Exchange)
  : settled unit :=
  match source x with
  | inl e => inl e
  | inr response =>
      if ok response then
        match blob response with
        | inl e => inl e
        | inr blob' =>
            match outcome (getPresignedUrl c (stored_name i)
                             (blob_type blob') (broker x)) with
            | inl e => inl e
            | inr _ => transfer_result (upload_end x)
            end
        end
      else inl (ErrorObj (lit "Fetch failed: " ++ statusText response))
  end.

Lemma attempt_result_outcome c i x :
  outcome (attempt c i x) = attempt_result c i x.
Proof.
  rewrite attempt_outcome. unfold prepare, attempt_result, stored_name.
  run_async.
  destruct (source x) as [e|response]; run_async; [reflexivity|].
  destruct (ok response); run_async; [|reflexivity].
  destruct (blob response) as [e|blob']; run_async; [reflexivity|].
  cbn [file_type].
  match goal with
  | |- context [outcome ?g] => destruct (outcome g)
  end; reflexivity.
Qed.

(** *** Worked example: two URLs on a configured S3 bucket *)

Definition s3_ready : CloudConfig := s3_filled_in.

(** An exchange in which the source and the broker answer well and the
    transfer reports half way before it ends with [upload_end]. *)
Definition exchange_ending (upload_end : XhrEnd) : Exchange :=
  {| source := inr {| ok := true; statusText := lit "OK";
                      blob := inr {| blob_type := lit "image/png" |} |};
     broker := inr {| broker_ok := true;
                      json := inr {| error_message := None;
                                     signedUrl := lit "https://s3/put" |} |};
     upload_progress := [{| lengthComputable := true; loaded := 1;
                            total := 2 |}];
     upload_end := upload_end |}.

(** The first item is stored, the second is refused with status 403. *)
Definition first_ok_second_refused (k : nat) : Exchange :=
  match k with
  | O => exchange_ending (xhr_load 200)
  | _ => exchange_ending (xhr_load 403)
  end.

Definition two_urls : jsstring :=
  lit "https://x.com/f1.jpg,https://x.com/f2.png".

Example two_urls_statuses :
  map (fun st => (map (fun i => (status i, progress i)) (items st),
                  isUploading st))
    (observable {| items := []; isUploading := false |}
       (log (handleBulkUpload prefix_protocol s3_ready two_urls
               (fun _ => 1700000000000%N) first_ok_second_refused)))
  = [([(Status.pending, 0); (Status.pending, 0)], true);
     ([(Status.uploading, 0); (Status.pending, 0)], true);
     ([(Status.uploading, 50); (Status.pending, 0)], true);
     ([(Status.success, 100); (Status.pending, 0)], true);
     ([(Status.success, 100); (Status.uploading, 0)], true);
     ([(Status.success, 100); (Status.uploading, 50)], true);
     ([(Status.success, 100); (Status.error, 0)], true);
     ([(Status.success, 100); (Status.error, 0)], false)]%Z.
Proof. vm_compute. reflexivity. Qed.

(** *** The properties of a batch *)

Lemma batch_states_ordered c world now urls :
  Forall (fun st => in_order (items st) /\ sequential (items st)
                    /\ map url (items st) = urls)
    (batch_states c world (new_items now 0 urls)).
Proof.
  assert (P : Forall is_pending (new_items now 0 urls)).
  { eapply Forall_impl; [|apply new_items_pending]. cbn. tauto. }
  pose proof (batch_states_in_order c world _ P) as O.
  pose proof (batch_states_urls c world (new_items now 0 urls)) as U.
  rewrite new_items_url in U.
  rewrite Forall_forall in *. intros st H.
  specialize (O st H). specialize (U st H).
  repeat split; [exact O|apply in_order_sequential; exact O|exact U].
Qed.

(** C1. While a batch runs, whether it comes from the bulk text or from a
    file, every state an observer can see holds the batch's URLs in input
    order and is in order: settled items first, then at most one item that
    is in flight, then pending items.  So the item at position n+1 has left
    [pending] only if the item at position n has status [success] or [error].
    The sources are fetched one per item, in input order. *)
Theorem batch_items_are_processed_in_order
  (URL_protocol : jsstring -> option jsstring) (c : CloudConfig)
  (now : nat -> N) (world : nat -> Exchange) (st0 : UploadState)
  (bulkUrls : jsstring) (file : option (settled jsstring)) :
  let bulk := log (handleBulkUpload URL_protocol c bulkUrls now world) in
  let from_file := log (handleFileUpload URL_protocol c file now world) in
  Forall (fun st => in_order (items st) /\ sequential (items st)
                    /\ map url (items st) = parseUrls URL_protocol bulkUrls)
    (observable st0 bulk)
  /\ source_fetches bulk = parseUrls URL_protocol bulkUrls
  /\ Forall (fun st => in_order (items st) /\ sequential (items st)
                       /\ map url (items st) = file_urls URL_protocol file)
       (observable st0 from_file)
  /\ source_fetches from_file = file_urls URL_protocol file.
Proof.
  cbn zeta.
  destruct (handleBulkUpload_run URL_protocol c bulkUrls now world st0)
    as (B1 & _ & B3 & _).
  destruct (handleFileUpload_run URL_protocol c file now world st0)
    as (F1 & _ & F3 & _).
  cbn zeta in *. rewrite B1, B3, F1, F3.
  repeat split.
  - destruct (parseUrls URL_protocol bulkUrls) eqn:E; [constructor|].
    apply batch_states_ordered.
  - destruct (file_urls URL_protocol file) eqn:E; [constructor|].
    apply batch_states_ordered.
Qed.

(** C6. A batch always runs to its end and fetches every source exactly
    once, in order, whatever fails.  The states it goes through are those of
    [batch_states]: the items are taken one after the other, and the patches
    of an item change that item only.  When the batch ends, the item at each
    position is what [processUpload] makes of that item alone with the
    exchange of that position: no other item's exchange has a say.  An item
    whose source fetch, credential request or transfer fails ends with
    status [error], progress 0 and the message of the failure; any other
    item ends with status [success]. *)
Theorem item_failures_are_isolated
  (URL_protocol : jsstring -> option jsstring) (c : CloudConfig)
  (now : nat -> N) (world : nat -> Exchange) (st0 : UploadState)
  (bulkUrls : jsstring) (file : option (settled jsstring)) :
  let bulk := handleBulkUpload URL_protocol c bulkUrls now world in
  let from_file := handleFileUpload URL_protocol c file now world in
  let seen (urls : list jsstring) :=
    match urls with
    | [] => []
    | _ :: _ => batch_states c world (new_items now 0 urls)
    end in
  let ended (urls : list jsstring) :=
    match urls with
    | [] => st0
    | _ :: _ =>
        {| items := settle_each c world 0 (new_items now 0 urls);
           isUploading := false |}
    end in
  (outcome bulk = inr tt
   /\ source_fetches (log bulk) = parseUrls URL_protocol bulkUrls
   /\ observable st0 (log bulk) = seen (parseUrls URL_protocol bulkUrls)
   /\ final st0 (log bulk) = ended (parseUrls URL_protocol bulkUrls))
  /\ (outcome from_file = inr tt
      /\ source_fetches (log from_file) = file_urls URL_protocol file
      /\ observable st0 (log from_file) = seen (file_urls URL_protocol file)
      /\ final st0 (log from_file) = ended (file_urls URL_protocol file))
  /\ (forall batch n,
        nth_error (settle_each c world 0 batch) n
        = option_map (fun i => settle c i (world n)) (nth_error batch n))
  /\ (forall i x,
        settle c i x
        = match attempt_result c i x with
          | inl e => failed_item i e
          | inr _ => succeeded_item i
          end).
Proof.
  cbn zeta.
  destruct (handleBulkUpload_run URL_protocol c bulkUrls now world st0)
    as (B1 & B2 & B3 & B4).
  destruct (handleFileUpload_run URL_protocol c file now world st0)
    as (F1 & F2 & F3 & F4).
  cbn zeta in *. repeat split; try assumption.
  - intros batch n. apply (settle_each_nth c world batch 0 n).
  - intros i x. rewrite <- attempt_result_outcome. apply settle_outcome.
Qed.

(** C7. When the source was fetched and the write credential obtained, the
    final status of the transfer decides how the item ends: with 200 or 201
    it ends with status [success] and progress 100, with any other status it
    ends with status [error]. *)
Theorem transfer_status_decides (c : CloudConfig) (i : UploadItem)
  (x : Exchange) (ready : File * jsstring) (xhr_status : N) :
  outcome (prepare c i x) = inr ready ->
  upload_end x = xhr_load xhr_status ->
  (xhr_status = 200%N \/ xhr_status = 201%N ->
   status (settle c i x) = Status.success
   /\ progress (settle c i x) = 100%Z)
  /\ (xhr_status <> 200%N -> xhr_status <> 201%N ->
      status (settle c i x) = Status.error
      /\ error (settle c i x)
         = Some (lit "Upload failed: " ++ decimal xhr_status)).
Proof.
  intros P U. rewrite settle_outcome, attempt_outcome, P, U.
  unfold transfer_result. split.
  - intros [->| ->]; split; reflexivity.
  - intros N0 N1.
    apply N.eqb_neq in N0, N1. rewrite N0, N1. split; reflexivity.
Qed.

Definition sample_item : UploadItem :=
  {| id := lit "1700000000000-0"; url := lit "https://x.com/f1.jpg";
     status := Status.pending; progress := 0; error := None;
     fileName := None |}.

Lemma transfer_status_decides_witness :
  (403%N = 200%N \/ 403%N = 201%N ->
   status (settle s3_ready sample_item (exchange_ending (xhr_load 403)))
   = Status.success
   /\ progress (settle s3_ready sample_item (exchange_ending (xhr_load 403)))
      = 100%Z)
  /\ (403%N <> 200%N -> 403%N <> 201%N ->
      status (settle s3_ready sample_item (exchange_ending (xhr_load 403)))
      = Status.error
      /\ error (settle s3_ready sample_item (exchange_ending (xhr_load 403)))
         = Some (lit "Upload failed: " ++ decimal 403)).
Proof.
  apply (transfer_status_decides s3_ready sample_item
           (exchange_ending (xhr_load 403))
           ({| file_name := lit "f1.jpg"; file_type := lit "image/png" |},
            lit "https://s3/put") 403%N); reflexivity.
Defined.

(** *** Failed items and the aggregate *)

Definition is_error (st : Status.t) : bool :=
  match st with Status.error => true | _ => false end.

Lemma failed_items_add_nothing l :
  Forall failed_at_zero l ->
  total_progress l
  = total_progress (filter (fun i => negb (is_error (status i))) l).
Proof.
  rewrite !total_progress_sum. unfold sum_Z.
  induction 1 as [|i l Hi _ IH]; [reflexivity|].
  cbn [filter]. destruct (status i) eqn:E; cbn [is_error negb map fold_right];
    rewrite IH; try reflexivity.
  destruct (Hi E) as [-> _]. reflexivity.
Qed.

(** What C10 says of a state. *)
Definition failures_at_zero (st : UploadState) : Prop :=
  Forall failed_at_zero (items st)
  /\ total_progress (items st)
     = total_progress
         (filter (fun i => negb (is_error (status i))) (items st)).

Lemma batch_states_failures c world batch :
  Forall is_pending batch ->
  Forall failures_at_zero (batch_states c world batch).
Proof.
  intros P. eapply Forall_impl; [|apply batch_states_in_order; exact P].
  intros st O. apply in_order_failed_at_zero in O.
  split; [exact O|apply failed_items_add_nothing; exact O].
Qed.

Lemma new_items_is_pending now k urls :
  Forall is_pending (new_items now k urls).
Proof.
  eapply Forall_impl; [|apply new_items_pending]. cbn. tauto.
Qed.

(** C10. A patch that takes an item to [error] leaves it with progress 0.
    In every state an observer can see while a single upload, a bulk batch
    or a file batch runs, every item with status [error] has progress 0 and
    a message, and the sum of the progress values that the aggregate is
    computed from is the sum over the items that have not failed. *)
Theorem failed_items_have_progress_zero
  (URL_protocol : jsstring -> option jsstring) (c : CloudConfig)
  (now : nat -> N) (world : nat -> Exchange) (st0 : UploadState)
  (bulkUrls singleUrl : jsstring) (file : option (settled jsstring))
  (now1 : N) (x : Exchange) :
  (forall f i,
      status i <> Status.error ->
      status (apply_patch f i) = Status.error ->
      progress (apply_patch f i) = 0%Z)
  /\ Forall failures_at_zero
       (observable st0
          (log (handleBulkUpload URL_protocol c bulkUrls now world)))
  /\ Forall failures_at_zero
       (observable st0
          (log (handleFileUpload URL_protocol c file now world)))
  /\ Forall failures_at_zero
       (observable st0
          (log (handleSingleUpload URL_protocol c singleUrl now1 x))).
Proof.
  destruct (handleBulkUpload_run URL_protocol c bulkUrls now world st0)
    as (B1 & _).
  destruct (handleFileUpload_run URL_protocol c file now world st0)
    as (F1 & _).
  destruct (handleSingleUpload_run URL_protocol c singleUrl now1 x st0)
    as (S1 & _).
  cbn zeta in *. rewrite B1, F1, S1. repeat split.
  - intros f i Hi. destruct f; cbn; congruence.
  - destruct (parseUrls URL_protocol bulkUrls); [constructor|].
    apply batch_states_failures, new_items_is_pending.
  - destruct (file_urls URL_protocol file); [constructor|].
    apply batch_states_failures, new_items_is_pending.
  - unfold single_item.
    destruct (isValidUrl URL_protocol (sanitizeUrl singleUrl));
      [|constructor].
    apply batch_states_failures. repeat constructor.
Qed.

Lemma failed_items_have_progress_zero_witness :
  status sample_item <> Status.error
  /\ status (apply_patch (to_error (lit "Network error")) sample_item)
     = Status.error
  /\ progress (apply_patch (to_error (lit "Network error")) sample_item)
     = 0%Z.
Proof.
  assert (P : status sample_item <> Status.error) by discriminate.
  split; [exact P|]. split; [reflexivity|].
  exact (proj1 (failed_items_have_progress_zero prefix_protocol s3_ready
                  (fun _ => 1700000000000%N) first_ok_second_refused
                  {| items := []; isUploading := false |}
                  two_urls two_urls None 1700000000000%N
                  (exchange_ending xhr_error))
           (to_error (lit "Network error")) sample_item P eq_refl).
Defined.

End OrchestratorFacts.

(** ** The credential brokers *)

Module ServerFacts.
Import Server AsyncFacts.

#[local] Arguments bind : simpl never.
#[local] Arguments try_catch : simpl never.

(** *** Well-formed requests *)

Definition opt_member (key : string) (v : option jsstring)
  : list (string * json) :=
  match v with
  | Some s => [(key, JString s)]
  | None => []
  end.

(** The body the client sends to [/api/azure-sas-url]. *)
Definition azure_body (fileName fileType accountName containerName : jsstring)
  (accountKey sasToken : option jsstring) : json :=
  JObject
    [("fileName", JString fileName); ("fileType", JString fileType);
     ("config",
      JObject ([("provider", JString (lit "azure"));
                ("accountName", JString accountName);
                ("containerName", JString containerName)]
               ++ opt_member "accountKey" accountKey
               ++ opt_member "sasToken" sasToken))]%string.

(** The body the client sends to [/api/gcp-signed-url]; a field that is
    [None] is missing. *)
Definition gcp_body (fileName fileType bucket projectId keyFile
                     : option jsstring) : json :=
  JObject
    (opt_member "fileName" fileName ++ opt_member "fileType" fileType
     ++ [("config"%string,
          JObject ([("provider"%string, JString (lit "gcp"))]
                   ++ opt_member "bucket" bucket
                   ++ opt_member "projectId" projectId
                   ++ opt_member "keyFile" keyFile))]).

(** *** The schemas of [RequestRoutes] *)

Section RequestSchemas.
Import RequestRoutes.

(** A member that is there and is a non-empty string. *)
Definition required (key : string) (o : json) (s : jsstring) : Prop :=
  member key o = Some (JString s) /\ s <> [].

Lemma z_string_min_1 v s :
  z_string_min 1 v = Some s -> v = Some (JString s) /\ s <> [].
Proof.
  unfold z_string_min. destruct v as [[| | |t| |]|]; try discriminate.
  destruct t; cbn; [discriminate|]. intros H. inversion H. split; congruence.
Qed.

Lemma z_string_min_max_1 m v s :
  z_string_min_max 1 m v = Some s ->
  v = Some (JString s) /\ s <> [] /\ (length s <= m)%nat.
Proof.
  unfold z_string_min_max. destruct v as [[| | |t| |]|]; try discriminate.
  destruct (_ && _)%bool eqn:E; [|discriminate].
  apply andb_true_iff in E as [E1 E2].
  apply Nat.leb_le in E1, E2. intros H. inversion H; subst.
  repeat split; [|exact E2]. intros ->. cbn in E1. lia.
Qed.

Lemma z_object_some v o : z_object v = Some o -> v = Some o.
Proof.
  unfold z_object. destruct v as [[| | | | |]|]; try discriminate.
  intros H. inversion H. reflexivity.
Qed.

Ltac schema_steps H :=
  repeat match type of H with
         | match ?x with _ => _ end = Some _ =>
             let E := fresh "E" in destruct x eqn:E; [|discriminate H]
         end.

(** What the schemas demand: a request they accept has every required
    member, as a non-empty string. *)
Lemma gcpRequestSchema_requires body req :
  gcpRequestSchema body = Some req ->
  required "fileName" body (fileName req)
  /\ required "fileType" body (fileType req)
  /\ exists c,
       member "config" body = Some c
       /\ required "bucket" c (GCPConfig.bucket (config req))
       /\ required "projectId" c (GCPConfig.projectId (config req))
       /\ required "keyFile" c (GCPConfig.keyFile (config req)).
Proof.
  unfold gcpRequestSchema. intros H. schema_steps H.
  apply z_object_some in E. inversion E; subst.
  apply z_object_some in E2.
  apply z_string_min_max_1 in E0 as (? & ? & _).
  apply z_string_min_1 in E1, E4, E5, E6.
  inversion H; subst; cbn. unfold required. repeat split; try tauto.
  eexists. repeat split; try exact E2; tauto.
Qed.

Lemma s3RequestSchema_requires body req :
  s3RequestSchema body = Some req ->
  required "fileName" body (fileName req)
  /\ required "fileType" body (fileType req)
  /\ exists c,
       member "config" body = Some c
       /\ required "bucket" c (S3Config.bucket (config req))
       /\ required "region" c (S3Config.region (config req))
       /\ required "accessKeyId" c (S3Config.accessKeyId (config req))
       /\ required "secretAccessKey" c
            (S3Config.secretAccessKey (config req)).
Proof.
  unfold s3RequestSchema. intros H. schema_steps H.
  apply z_object_some in E. inversion E; subst.
  apply z_object_some in E2.
  apply z_string_min_max_1 in E0 as (? & ? & _).
  apply z_string_min_1 in E1, E4, E5, E6, E7.
  inversion H; subst; cbn. unfold required. repeat split; try tauto.
  eexists. repeat split; try exact E2; tauto.
Qed.

Lemma azureRequestSchema_requires body req :
  azureRequestSchema body = Some req ->
  required "fileName" body (fileName req)
  /\ required "fileType" body (fileType req)
  /\ (exists c,
        member "config" body = Some c
        /\ required "accountName" c (AzureConfig.accountName (config req))
        /\ required "containerName" c
             (AzureConfig.containerName (config req)))
  /\ has_authentication (config req) = true.
Proof.
  unfold azureRequestSchema. intros H. schema_steps H.
  apply z_object_some in E. inversion E; subst.
  apply z_object_some in E2.
  apply z_string_min_max_1 in E0 as (? & ? & _).
  apply z_string_min_1 in E1, E4, E5.
  destruct (has_authentication _) eqn:A; [|discriminate].
  inversion H; subst; cbn. unfold required. repeat split; try tauto.
  eexists. repeat split; try exact E2; tauto.
Qed.

(** So a request that lacks a required member is refused. *)
Lemma missing_member_is_refused body c :
  member "config" body = Some c ->
  (member "fileName" body = None \/ member "fileType" body = None
   \/ member "bucket" c = None \/ member "region" c = None
   \/ member "accessKeyId" c = None \/ member "secretAccessKey" c = None ->
   s3RequestSchema body = None)
  /\ (member "fileName" body = None \/ member "fileType" body = None
      \/ member "bucket" c = None \/ member "projectId" c = None
      \/ member "keyFile" c = None ->
      gcpRequestSchema body = None)
  /\ (member "fileName" body = None \/ member "fileType" body = None
      \/ member "accountName" c = None \/ member "containerName" c = None ->
      azureRequestSchema body = None).
Proof.
  intros C. unfold required. split; [|split]; intros M.
  - destruct (s3RequestSchema body) as [req|] eqn:E; [|reflexivity].
    apply s3RequestSchema_requires in E
      as ([] & [] & c' & C' & [] & [] & [] & []).
    rewrite C in C'. injection C' as <-.
    repeat destruct M as [M|M]; congruence.
  - destruct (gcpRequestSchema body) as [req|] eqn:E; [|reflexivity].
    apply gcpRequestSchema_requires in E
      as ([] & [] & c' & C' & [] & [] & []).
    rewrite C in C'. injection C' as <-.
    repeat destruct M as [M|M]; congruence.
  - destruct (azureRequestSchema body) as [req|] eqn:E; [|reflexivity].
    apply azureRequestSchema_requires in E
      as ([] & [] & (c' & C' & [] & []) & _).
    rewrite C in C'. injection C' as <-.
    repeat destruct M as [M|M]; congruence.
Qed.

(** With neither an account key nor a SAS token the schema refuses the
    request, whatever the other fields. *)
Lemma azureRequestSchema_needs_authentication
  fileName fileType accountName containerName accountKey sasToken :
  when_given accountKey = None -> when_given sasToken = None ->
  azureRequestSchema
    (azure_body fileName fileType accountName containerName
       accountKey sasToken) = None.
Proof.
  intros K T. unfold azureRequestSchema, azure_body.
  destruct accountKey as [k|], sasToken as [t|];
    cbn [z_object member lookup opt_member app String.eqb Ascii.eqb
           Bool.eqb z_string_optional];
    repeat match goal with
           | |- match ?x with _ => _ end = None =>
               destruct x eqn:?; [|reflexivity]
           end;
    exfalso; unfold has_authentication in *;
    cbn [AzureConfig.accountKey AzureConfig.sasToken] in *;
    rewrite ?K, ?T in *; cbn in *; discriminate.
Qed.

End RequestSchemas.

(** *** The routes of [RequestRoutes] *)

Section RequestRoutes.
Import RequestRoutes.
Variable zod_issues : json -> jsstring.
Variable JSON_parse : jsstring -> option json.
Variable blob_url : jsstring -> jsstring -> jsstring -> jsstring.

Definition rejected (r : M sdk_call HttpResponse) (status : N)
  (code : string) : Prop :=
  log r = []
  /\ exists message,
       outcome r = inr {| http_status := status;
                          http_body := failure code message |}.

Lemma parse_rejects {R} (schema : json -> option R) body
  (k : R -> M sdk_call HttpResponse) code message :
  schema body = None ->
  rejected (try_catch (bind (parse zod_issues schema body) k)
              (on_error code message)) 400 "VALIDATION_ERROR".
Proof.
  intros E. unfold rejected, parse. rewrite E. run_async.
  split; [reflexivity|eexists; reflexivity].
Qed.

(** A request the schema refuses is answered 400 [VALIDATION_ERROR] and no
    SDK call is made. *)
Lemma request_routes_validate now1 now2 answer body :
  (s3RequestSchema body = None ->
   rejected (s3Routes zod_issues answer body) 400 "VALIDATION_ERROR")
  /\ (gcpRequestSchema body = None ->
      rejected (gcpRoutes zod_issues JSON_parse now1 answer body)
        400 "VALIDATION_ERROR")
  /\ (azureRequestSchema body = None ->
      rejected (azureRoutes zod_issues blob_url now2 answer body)
        400 "VALIDATION_ERROR").
Proof.
  split; [|split]; intros E; apply parse_rejects; exact E.
Qed.

(** What a route answers when the SDK call settles. *)
Definition settled_answer (code : string) (message : jsstring)
  (answer : settled jsstring) (url : jsstring -> jsstring) : HttpResponse :=
  match answer with
  | inr a => {| http_status := 200; http_body := signed (url a) |}
  | inl (ZodError _) =>
      {| http_status := 400;
         http_body := failure "VALIDATION_ERROR"
                        (lit "Invalid request data") |}
  | inl _ => {| http_status := 500; http_body := failure code message |}
  end.

Lemma s3Routes_accepted answer body req :
  s3RequestSchema body = Some req ->
  log (s3Routes zod_issues answer body)
  = [s3_getSignedUrl (S3Config.region (config req))
       (S3Config.accessKeyId (config req))
       (S3Config.secretAccessKey (config req))
       (S3Config.sessionToken (config req)) (S3Config.endpoint (config req))
       (S3Config.bucket (config req)) (fileName req) (fileType req) 3600]
  /\ outcome (s3Routes zod_issues answer body)
     = inr (settled_answer "S3_ERROR"
              (lit "Failed to generate S3 presigned URL") answer
              (fun u => u)).
Proof.
  intros E. unfold s3Routes, parse, settled_answer. rewrite E. run_async.
  destruct answer as [[| |]|u]; run_async; split; reflexivity.
Qed.

Lemma gcpRoutes_accepted now answer body req :
  gcpRequestSchema body = Some req ->
  match JSON_parse (GCPConfig.keyFile (config req)) with
  | None =>
      rejected (gcpRoutes zod_issues JSON_parse now answer body)
        400 "INVALID_CREDENTIALS"
  | Some credentials =>
      log (gcpRoutes zod_issues JSON_parse now answer body)
      = [gcs_getSignedUrl (GCPConfig.projectId (config req))
           (inr credentials) (GCPConfig.bucket (config req)) (fileName req)
           "v4" "write" (now + 3600 * 1000) (fileType req)]
      /\ outcome (gcpRoutes zod_issues JSON_parse now answer body)
         = inr (settled_answer "GCP_ERROR"
                  (lit "Failed to generate GCP signed URL") answer
                  (fun u => u))
  end.
Proof.
  intros E. unfold gcpRoutes, parse, settled_answer, rejected.
  rewrite E. run_async.
  destruct (JSON_parse (GCPConfig.keyFile (config req))); run_async.
  - destruct answer as [[| |]|u]; run_async; split; reflexivity.
  - split; [reflexivity|eexists; reflexivity].
Qed.

(** The Azure route of [RequestRoutes]: an account key signs a write-only
    SAS for one hour from now; a SAS token alone is reused and nothing is
    signed. *)
Lemma azureRoutes_accepted now answer body req :
  azureRequestSchema body = Some req ->
  let c := config req in
  match when_given (AzureConfig.accountKey c),
        when_given (AzureConfig.sasToken c) with
  | Some accountKey, _ =>
      log (azureRoutes zod_issues blob_url now answer body)
      = [azure_generateBlobSASQueryParameters (AzureConfig.accountName c)
           accountKey (AzureConfig.containerName c) (fileName req) "w"
           (now 0%nat) (now 1%nat + 3600 * 1000)]
      /\ outcome (azureRoutes zod_issues blob_url now answer body)
         = inr (settled_answer "AZURE_ERROR"
                  (lit "Failed to generate Azure SAS URL") answer
                  (fun sas =>
                     blob_url (blob_service_url (AzureConfig.accountName c))
                       (AzureConfig.containerName c) (fileName req)
                     ++ lit "?" ++ sas))
  | None, Some sasToken =>
      log (azureRoutes zod_issues blob_url now answer body) = []
      /\ outcome (azureRoutes zod_issues blob_url now answer body)
         = inr {| http_status := 200;
                  http_body :=
                    signed
                      (blob_url
                         (blob_service_url (AzureConfig.accountName c)
                          ++ lit "?" ++ sasToken)
                         (AzureConfig.containerName c) (fileName req)) |}
  | None, None => False
  end.
Proof.
  intros E. cbn zeta.
  pose proof (azureRequestSchema_requires body req E) as (_ & _ & _ & A).
  unfold has_authentication in A.
  unfold azureRoutes, parse, settled_answer. rewrite E. run_async.
  destruct (when_given (AzureConfig.accountKey (config req))) as [key|];
    run_async.
  - destruct answer as [[| |]|u]; run_async; split; reflexivity.
  - destruct (when_given (AzureConfig.sasToken (config req))) as [sas|];
      [|discriminate]. run_async. split; reflexivity.
Qed.

End RequestRoutes.

(** *** The routes of [src/server/routes] *)

Section ConfigRoutes.
Import ConfigRoutes.
Variable zod_issues : json -> jsstring.

(** Every failure leaves [gcp.ts] through the one [catch]: a body the schema
    refuses is answered 400 with the code of a provider failure. *)
Lemma gcpRoutes_refused now answer body :
  gcpConfigSchema body = None ->
  log (gcpRoutes zod_issues now answer body) = []
  /\ outcome (gcpRoutes zod_issues now answer body)
     = inr {| http_status := 400;
              http_body := failure "GCP_SIGNED_URL_ERROR"
                             (zod_issues body) |}.
Proof.
  intros E. unfold gcpRoutes, parse. rewrite E. run_async.
  split; reflexivity.
Qed.

(** The key material goes to the SDK as a file name; it is not parsed. *)
Lemma gcpRoutes_accepted_as_file_name now answer body req :
  gcpConfigSchema body = Some req ->
  log (gcpRoutes zod_issues now answer body)
  = [gcs_getSignedUrl (GCPConfig.projectId (config req))
       (inl (GCPConfig.keyFile (config req)))
       (GCPConfig.bucket (config req)) (fileName req)
       "v4" "write" (now + 3600 * 1000) (fileType req)]
  /\ outcome (gcpRoutes zod_issues now answer body)
     = inr match answer with
           | inr u => {| http_status := 200; http_body := signed u |}
           | inl e =>
               {| http_status := 400;
                  http_body :=
                    failure "GCP_SIGNED_URL_ERROR"
                      (message_or (lit "Failed to generate signed URL") e) |}
           end.
Proof.
  intros E. unfold gcpRoutes, parse. rewrite E. run_async.
  destruct answer as [e|u]; run_async; split; reflexivity.
Qed.

(** [azure.ts] asks the SDK to sign on both paths. *)
Lemma azureRoutes_always_signs now answer body req :
  azureConfigSchema body = Some req ->
  let c := config req in
  let answered (a : settled jsstring) :=
    match a with
    | inr u => {| http_status := 200; http_body := signed u |}
    | inl e =>
        {| http_status := 400;
           http_body :=
             failure "AZURE_SAS_URL_ERROR"
               (message_or (lit "Failed to generate SAS URL") e) |}
    end in
  match when_given (AzureConfig.accountKey c),
        when_given (AzureConfig.sasToken c) with
  | Some accountKey, _ =>
      log (azureRoutes zod_issues now answer body)
      = [azure_generateSasUrl (blob_service_url (AzureConfig.accountName c))
           (Some (AzureConfig.accountName c, accountKey))
           (AzureConfig.containerName c) (fileName req) "w"
           (now + 3600 * 1000)]
      /\ outcome (azureRoutes zod_issues now answer body)
         = inr (answered answer)
  | None, Some sasToken =>
      log (azureRoutes zod_issues now answer body)
      = [azure_generateSasUrl
           (blob_service_url (AzureConfig.accountName c) ++ lit "?"
            ++ sasToken)
           None (AzureConfig.containerName c) (fileName req) "w"
           (now + 3600 * 1000)]
      /\ outcome (azureRoutes zod_issues now answer body)
         = inr (answered answer)
  | None, None =>
      log (azureRoutes zod_issues now answer body) = []
      /\ outcome (azureRoutes zod_issues now answer body)
         = inr (answered
                  (inl (ErrorObj
                          (lit "Either accountKey or sasToken must be provided"))))
  end.
Proof.
  intros E. cbn zeta. unfold azureRoutes, parse. rewrite E. run_async.
  destruct (when_given (AzureConfig.accountKey (config req))) as [key|];
    [|destruct (when_given (AzureConfig.sasToken (config req))) as [sas|]];
    run_async; try (destruct answer as [e|u]; run_async);
    split; reflexivity.
Qed.

End ConfigRoutes.

(** *** The two sets of routes on the same requests *)

(** An Azure request that carries a SAS token and no account key. *)
Definition azure_sas_only : json :=
  azure_body (lit "a.pdf") (lit "application/pdf") (lit "acct")
    (lit "uploads") None (Some (lit "sv=2022-11-02&sp=w&sig=abc")).

(** C2, on the request [azure_sas_only]. The route of [azure.ts] asks the
    SDK for a new signature although only a SAS token was supplied, and it
    answers with what that call gives, an error with code
    [AZURE_SAS_URL_ERROR] when the call is refused; the specification says
    that the token is reused and nothing is signed, which is what the route
    of [RequestRoutes] does on the same request. *)
Theorem azure_route_signs_again_with_a_sas_token
  (zod_issues : json -> jsstring) (now : Z) (answer : settled jsstring)
  (clock : nat -> Z)
  (blob_url : jsstring -> jsstring -> jsstring -> jsstring) :
  log (ConfigRoutes.azureRoutes zod_issues now answer azure_sas_only)
  = [azure_generateSasUrl
       (lit "https://acct.blob.core.windows.net?sv=2022-11-02&sp=w&sig=abc")
       None (lit "uploads") (lit "a.pdf") "w" (now + 3600 * 1000)]
  /\ outcome (ConfigRoutes.azureRoutes zod_issues now answer azure_sas_only)
     = inr match answer with
           | inr u => {| http_status := 200; http_body := signed u |}
           | inl e =>
               {| http_status := 400;
                  http_body :=
                    failure "AZURE_SAS_URL_ERROR"
                      (message_or (lit "Failed to generate SAS URL") e) |}
           end
  /\ log (RequestRoutes.azureRoutes zod_issues blob_url clock answer
            azure_sas_only) = []
  /\ outcome (RequestRoutes.azureRoutes zod_issues blob_url clock answer
                azure_sas_only)
     = inr {| http_status := 200;
              http_body :=
                signed
                  (blob_url
                     (lit "https://acct.blob.core.windows.net?sv=2022-11-02&sp=w&sig=abc")
                     (lit "uploads") (lit "a.pdf")) |}.
Proof.
  assert (E1 : exists req,
             ConfigRoutes.azureConfigSchema azure_sas_only = Some req)
    by (eexists; vm_compute; reflexivity).
  assert (E2 : exists req,
             RequestRoutes.azureRequestSchema azure_sas_only = Some req)
    by (eexists; vm_compute; reflexivity).
  destruct E1 as [req1 E1], E2 as [req2 E2].
  pose proof (azureRoutes_always_signs zod_issues now answer _ _ E1) as C.
  pose proof (azureRoutes_accepted zod_issues blob_url clock answer _ _ E2)
    as R.
  vm_compute in E1, E2. injection E1 as <-. injection E2 as <-.
  cbn in C, R. destruct C as [C1 C2], R as [R1 R2].
  repeat split; assumption.
Qed.

(** A GCP request without the bucket. *)
Definition gcp_without_bucket : json :=
  gcp_body (Some (lit "a.pdf")) (Some (lit "application/pdf")) None
    (Some (lit "my-project")) (Some (lit "{}")).

(** A GCP request whose key material is no JSON text. *)
Definition gcp_with_bad_key : json :=
  gcp_body (Some (lit "a.pdf")) (Some (lit "application/pdf"))
    (Some (lit "my-bucket")) (Some (lit "my-project"))
    (Some (lit "not json")).

(** C3, on the requests [gcp_without_bucket] and [gcp_with_bad_key]. The
    route of [gcp.ts] answers the request without a bucket with 400 and the
    code [GCP_SIGNED_URL_ERROR], and hands the unparsable key to the SDK as
    a file name, so that it answers 200 or [GCP_SIGNED_URL_ERROR]; the
    specification says [VALIDATION_ERROR] and [INVALID_CREDENTIALS], which
    is what the route of [RequestRoutes] answers on the same requests, with
    a [JSON.parse] that throws. *)
Theorem gcp_route_has_one_error_code
  (zod_issues : json -> jsstring) (now : Z) (answer : settled jsstring) :
  (log (ConfigRoutes.gcpRoutes zod_issues now answer gcp_without_bucket) = []
   /\ outcome (ConfigRoutes.gcpRoutes zod_issues now answer
                 gcp_without_bucket)
      = inr {| http_status := 400;
               http_body := failure "GCP_SIGNED_URL_ERROR"
                              (zod_issues gcp_without_bucket) |})
  /\ (log (ConfigRoutes.gcpRoutes zod_issues now answer gcp_with_bad_key)
      = [gcs_getSignedUrl (lit "my-project") (inl (lit "not json"))
           (lit "my-bucket") (lit "a.pdf") "v4" "write" (now + 3600 * 1000)
           (lit "application/pdf")]
      /\ outcome (ConfigRoutes.gcpRoutes zod_issues now answer
                    gcp_with_bad_key)
         = inr match answer with
               | inr u => {| http_status := 200; http_body := signed u |}
               | inl e =>
                   {| http_status := 400;
                      http_body :=
                        failure "GCP_SIGNED_URL_ERROR"
                          (message_or (lit "Failed to generate signed URL")
                             e) |}
               end)
  /\ outcome (RequestRoutes.gcpRoutes zod_issues (fun _ => None) now answer
                gcp_without_bucket)
     = inr {| http_status := 400;
              http_body := failure "VALIDATION_ERROR"
                             (lit "Invalid request data") |}
  /\ outcome (RequestRoutes.gcpRoutes zod_issues (fun _ => None) now answer
                gcp_with_bad_key)
     = inr {| http_status := 400;
              http_body := failure "INVALID_CREDENTIALS"
                             (lit "Invalid service account key format") |}.
Proof.
  split; [|split; [|split]].
  - apply gcpRoutes_refused. reflexivity.
  - assert (E : exists req,
               ConfigRoutes.gcpConfigSchema gcp_with_bad_key = Some req)
      by (eexists; vm_compute; reflexivity).
    destruct E as [req E].
    pose proof (gcpRoutes_accepted_as_file_name zod_issues now answer _ _ E)
      as C.
    vm_compute in E. injection E as <-. exact C.
  - reflexivity.
  - reflexivity.
Qed.

End ServerFacts.

(** ** More of the client: text intake *)

Module IntakeFacts.
Import Uploader UploaderFacts.

(** *** [trim] *)

Lemma drop_while_fix p s : drop_while p (drop_while p s) = drop_while p s.
Proof.
  induction s as [|c t IH]; [reflexivity|].
  cbn. destruct (p c) eqn:E; [exact IH|]. cbn. rewrite E. reflexivity.
Qed.

Lemma drop_while_length p s : (length (drop_while p s) <= length s)%nat.
Proof.
  induction s as [|c t IH]; [apply Nat.le_refl|].
  cbn. destruct (p c); cbn; lia.
Qed.

Lemma drop_while_keeps p a x b :
  p x = false -> drop_while p (a ++ x :: b) = drop_while p a ++ x :: b.
Proof.
  intros X. induction a as [|c a IH]; cbn; [rewrite X; reflexivity|].
  destruct (p c); [exact IH|reflexivity].
Qed.

Lemma drop_while_Forall (P : char16 -> Prop) p s :
  Forall P s -> Forall P (drop_while p s).
Proof.
  induction 1 as [|c t Hc Ht IH]; [constructor|].
  cbn. destruct (p c); [exact IH|constructor; assumption].
Qed.

(** No white space at either end. *)
Definition tight (s : jsstring) : Prop :=
  drop_while is_white s = s /\ drop_while is_white (rev s) = rev s.

Lemma trim_tight s : tight (trim s).
Proof.
  unfold tight, trim. rewrite rev_involutive, drop_while_fix.
  split; [|reflexivity].
  set (t := drop_while is_white s).
  assert (T : drop_while is_white t = t) by apply drop_while_fix.
  destruct t as [|x t']; [reflexivity|].
  assert (X : is_white x = false).
  { destruct (is_white x) eqn:E; [|reflexivity].
    cbn in T. rewrite E in T.
    pose proof (drop_while_length is_white t') as L.
    rewrite T in L. cbn in L. lia. }
  cbn [rev].
  rewrite (drop_while_keeps is_white (rev t') x [] X).
  rewrite rev_app_distr. cbn. rewrite X. reflexivity.
Qed.

Lemma trim_of_tight s : tight s -> trim s = s.
Proof.
  intros [A B]. unfold trim. rewrite A, B. apply rev_involutive.
Qed.

Lemma trim_idempotent s : trim (trim s) = trim s.
Proof. apply trim_of_tight, trim_tight. Qed.

Lemma trim_Forall (P : char16 -> Prop) s : Forall P s -> Forall P (trim s).
Proof.
  intros H. unfold trim.
  apply Forall_rev, drop_while_Forall, Forall_rev, drop_while_Forall.
  exact H.
Qed.

Lemma remove_class_id cls s :
  Forall (fun c => cls c = false) s -> remove_class cls s = s.
Proof.
  unfold remove_class. induction 1 as [|c t Hc _ IH]; [reflexivity|].
  cbn. rewrite Hc. cbn. f_equal. exact IH.
Qed.

Lemma remove_class_sub (P : char16 -> Prop) cls s :
  Forall P s -> Forall P (remove_class cls s).
Proof.
  intros H. apply Forall_forall. intros c Hc.
  apply filter_In in Hc as [Hc _]. rewrite Forall_forall in H. auto.
Qed.

(** X1. [sanitizeUrl] never leaves one of the four stripped characters and
    adds nothing to its input.  One pass is not a fixed point, since the
    stripping can uncover white space at the ends; a second pass only trims,
    and from then on nothing changes. *)
Theorem sanitizeUrl_settles_in_two_passes (url : jsstring) :
  Forall (fun c => markup_char c = false) (sanitizeUrl url)
  /\ (forall c, In c (sanitizeUrl url) -> In c url)
  /\ sanitizeUrl (sanitizeUrl url) = trim (sanitizeUrl url)
  /\ sanitizeUrl (sanitizeUrl (sanitizeUrl url))
     = sanitizeUrl (sanitizeUrl url)
  /\ sanitizeUrl (sanitizeUrl (lit "< a")) <> sanitizeUrl (lit "< a").
Proof.
  assert (C : forall s, Forall (fun c => markup_char c = false)
                          (sanitizeUrl s))
    by (intros s; apply remove_class_clean).
  assert (T : forall s, Forall (fun c => markup_char c = false) s ->
                        sanitizeUrl s = trim s).
  { intros s H. unfold sanitizeUrl. apply remove_class_id, trim_Forall, H. }
  split; [apply C|]. split; [|split; [|split]].
  - intros c H. unfold sanitizeUrl, remove_class, trim in H.
    apply filter_In in H as [H _]. apply in_rev in H.
    assert (D : forall s x, In x (drop_while is_white s) -> In x s).
    { induction s as [|y s IH]; cbn; [tauto|].
      intros x. destruct (is_white y); cbn; auto. }
    apply D in H. apply in_rev in H. apply D in H. exact H.
  - apply T, C.
  - rewrite (T (sanitizeUrl url) (C url)).
    rewrite T by (apply trim_Forall, C). apply trim_idempotent.
  - vm_compute. discriminate.
Qed.

(** *** [parseUrls] on joined inputs *)

Definition nonempty_pieces (l : list jsstring) : list jsstring :=
  filter truthy l.

Lemma nonempty_pieces_flag sep s :
  nonempty_pieces (split_runs sep true s)
  = nonempty_pieces (split_runs sep false s).
Proof.
  destruct s as [|c t]; [reflexivity|].
  cbn. destruct (sep c); reflexivity.
Qed.

Lemma split_runs_joined sep c b :
  sep c = true ->
  forall a,
    (exists p ps qs,
        split_runs sep false a = p :: ps
        /\ split_runs sep false (a ++ c :: b) = p :: qs
        /\ nonempty_pieces qs
           = nonempty_pieces ps ++ nonempty_pieces (split_runs sep false b))
    /\ nonempty_pieces (split_runs sep true (a ++ c :: b))
       = nonempty_pieces (split_runs sep true a)
         ++ nonempty_pieces (split_runs sep false b).
Proof.
  intros C. induction a as [|x a [(p & ps & qs & A1 & A2 & A3) IHt]].
  - split.
    + exists [], [], (split_runs sep true b). cbn. rewrite C.
      repeat split. apply nonempty_pieces_flag.
    + cbn. rewrite C. apply nonempty_pieces_flag.
  - cbn [app split_runs]. destruct (sep x) eqn:X.
    + split; [|exact IHt].
      exists [], (split_runs sep true a),
        (split_runs sep true (a ++ c :: b)).
      repeat split. exact IHt.
    + rewrite A1, A2. split.
      * exists (x :: p), ps, qs. repeat split. exact A3.
      * unfold nonempty_pieces in *. cbn [filter truthy].
        rewrite A3. reflexivity.
Qed.

Lemma nonempty_pieces_joined sep a c b :
  sep c = true ->
  nonempty_pieces (split_class sep (a ++ c :: b))
  = nonempty_pieces (split_class sep a)
    ++ nonempty_pieces (split_class sep b).
Proof.
  intros C. unfold split_class.
  destruct (split_runs_joined sep c b C a) as [(p & ps & qs & A1 & A2 & A3) _].
  rewrite A1, A2. unfold nonempty_pieces in *. cbn [filter].
  rewrite A3. destruct (truthy p); reflexivity.
Qed.

Lemma parseUrls_by_nonempty_pieces URL_protocol input :
  parseUrls URL_protocol input
  = filter (fun u => truthy u && isValidUrl URL_protocol u)
      (map sanitizeUrl
         (nonempty_pieces (split_class url_separator input))).
Proof.
  unfold parseUrls, nonempty_pieces.
  induction (split_class url_separator input) as [|p l IH]; [reflexivity|].
  destruct p as [|x p]; [exact IH|].
  cbn [filter truthy map]. rewrite <- IH. reflexivity.
Qed.

(** X2. Joining two inputs with a comma, a line feed or a carriage return
    gives the URLs of the first followed by the URLs of the second; an
    input with nothing but separators and white space gives none. *)
Theorem parseUrls_of_joined_inputs
  (URL_protocol : jsstring -> option jsstring) (a b : jsstring)
  (c : char16) (blank : jsstring) :
  (url_separator c = true ->
   parseUrls URL_protocol (a ++ c :: b)
   = parseUrls URL_protocol a ++ parseUrls URL_protocol b)
  /\ (Forall (fun x => url_separator x = true \/ is_white x = true) blank ->
      parseUrls URL_protocol blank = []).
Proof.
  split.
  - intros C. rewrite !parseUrls_by_nonempty_pieces.
    rewrite (nonempty_pieces_joined url_separator a c b C).
    rewrite map_app, filter_app. reflexivity.
  - intros B. unfold parseUrls.
    assert (E : Forall (fun p => sanitizeUrl p = [])
                  (split_class url_separator blank)).
    { assert (W : Forall (Forall (fun x => is_white x = true))
                    (split_class url_separator blank)).
      { pose proof (split_runs_clean url_separator false blank) as S.
        pose proof (split_runs_concat url_separator false blank) as K.
        fold (split_class url_separator blank) in S, K.
        apply Forall_forall. intros p Hp. apply Forall_forall. intros x Hx.
        assert (I : In x (concat (split_class url_separator blank)))
          by (apply in_concat; eauto).
        rewrite K in I. apply filter_In in I as [I N].
        rewrite Forall_forall in B. destruct (B x I) as [F|F]; [|exact F].
        rewrite F in N. discriminate. }
      eapply Forall_impl; [|exact W]. intros p Hp.
      unfold sanitizeUrl, trim.
      assert (D : drop_while is_white p = []).
      { induction Hp as [|x p Hx _ IH]; [reflexivity|].
        cbn. rewrite Hx. exact IH. }
      rewrite D. reflexivity. }
    induction E as [|p l Hp _ IH]; [reflexivity|].
    cbn [map filter]. rewrite Hp. cbn. exact IH.
Qed.

Lemma parseUrls_of_joined_inputs_witness :
  parseUrls prefix_protocol
    (lit "https://x.com/a" ++ 10%N :: lit "http://y.org/b")
  = parseUrls prefix_protocol (lit "https://x.com/a")
    ++ parseUrls prefix_protocol (lit "http://y.org/b")
  /\ parseUrls prefix_protocol (lit ", ,") = [].
Proof.
  split.
  - apply (proj1 (parseUrls_of_joined_inputs prefix_protocol
                    (lit "https://x.com/a") (lit "http://y.org/b")
                    10%N [])).
    reflexivity.
  - apply (proj2 (parseUrls_of_joined_inputs prefix_protocol [] [] 10%N
                    (lit ", ,"))).
    repeat first
      [ apply Forall_nil
      | apply Forall_cons; [first [left; reflexivity|right; reflexivity]|] ].
Defined.

End IntakeFacts.

(** ** More of the client: one item *)

Module ItemFacts.
Import Uploader UploaderFacts AsyncFacts OrchestratorFacts IntakeFacts.

#[local] Arguments bind : simpl never.
#[local] Arguments try_catch : simpl never.

(** *** The name of the stored file *)






(** *** [getPresignedUrl] *)

Definition endpoint_of (p : Provider.t) : jsstring :=
  match p with
  | Provider.s3 => lit "/api/s3-presigned-url"
  | Provider.gcp => lit "/api/gcp-signed-url"
  | Provider.azure => lit "/api/azure-sas-url"
  end.

Definition configuration_required (p : Provider.t) : jsstring :=
  match p with
  | Provider.s3 => lit "S3 configuration required"
  | Provider.gcp => lit "GCP configuration required"
  | Provider.azure => lit "Azure configuration required"
  end.

(** What the answer of the broker becomes. *)
Definition broker_result (p : Provider.t) (answer : settled BrokerResponse)
  : settled jsstring :=
  match answer with
  | inl e => inl e
  | inr response =>
      match json response with
      | inl e => inl e
      | inr body =>
          if broker_ok response then inr (signedUrl body)
          else inl (ErrorObj
                      (or_else (error_message body)
                         (lit "Failed to get " ++ toUpperCase p
                          ++ lit " signed URL")))
      end
  end.

(** X4. [getPresignedUrl] asks the broker exactly when [isCloudConfigured]
    holds.  Then it makes one request, to the endpoint of the active
    provider, with the sanitized name and type, and it resolves with the
    signed URL of an answer that is [ok]; an answer that is not [ok] rejects
    with the message of the server, or with a default one when the server
    gave none.  Without a configuration it makes no request and rejects with
    the provider's [configuration required] message. *)
Theorem getPresignedUrl_asks_when_configured (c : CloudConfig)
  (fileName fileType : jsstring) (answer : settled BrokerResponse) :
  let g := getPresignedUrl c fileName fileType answer in
  if isCloudConfigured c then
    log g = [fetch_broker (endpoint_of (provider c))
               (sanitizeFileName fileName) (sanitizeInput fileType)
               (provider c)]
    /\ outcome g = broker_result (provider c) answer
  else
    log g = []
    /\ outcome g = inl (ErrorObj (configuration_required (provider c))).
Proof.
  cbn zeta. unfold getPresignedUrl, isCloudConfigured, broker_result.
  destruct (provider c); cbn [endpoint_of configuration_required toUpperCase];
    repeat match goal with
           | |- context [field ?a ?b] => destruct (field a b)
           | |- context [opt_field ?a ?b] => destruct (opt_field a b)
           end;
    cbn [negb orb andb]; run_async; try (split; reflexivity);
    (destruct answer as [e|response]; run_async; [split; reflexivity|]);
    (destruct (broker_ok response); run_async);
    (destruct (json response) as [e|body]; run_async); split; reflexivity.
Qed.

(** *** [uploadFileToCloud] *)








(** *** Progress events *)


Lemma Math_round_monotone (p q : Q) :
  (p <= q)%Q -> (Math_round p <= Math_round q)%Z.
Proof.
  intros H. unfold Math_round. apply Qfloor_resp_le.
  apply Qplus_le_compat; [exact H|apply Qle_refl].
Qed.






(** *** The network calls of [processUpload] *)







End ItemFacts.

(** ** More of the client: handlers and what the page shows *)

Module PageFacts.
Import Uploader UploaderFacts AsyncFacts OrchestratorFacts ItemFacts.

#[local] Arguments bind : simpl never.
#[local] Arguments try_catch : simpl never.

(** *** New items *)

(** X8. The items made for a list of URLs have pairwise distinct
    identifiers, whatever the clock returns, carry the URLs in order, and
    all start pending with progress 0, no error and no file name. *)
Theorem new_items_are_fresh (now : nat -> N) (urls : list jsstring) :
  NoDup (map id (new_items now 0 urls))
  /\ map url (new_items now 0 urls) = urls
  /\ Forall (fun i => status i = Status.pending /\ progress i = 0%Z
                      /\ error i = None /\ fileName i = None)
       (new_items now 0 urls).
Proof.
  split; [apply new_items_NoDup|]. split; [apply new_items_url|].
  generalize 0%nat. induction urls as [|u urls IH]; intros k;
    constructor; [repeat split|apply IH].
Qed.

(** *** [handleSingleUpload] *)

(** X9. [handleSingleUpload] does nothing at all when the sanitized URL is
    not valid.  Otherwise it fetches that URL once and ends with one item,
    settled as [success] with progress 100 or as [error] with progress 0 and
    a message, and with [isUploading] cleared. *)
Theorem handleSingleUpload_runs_one_item
  (URL_protocol : jsstring -> option jsstring) (c : CloudConfig)
  (singleUrl : jsstring) (now : N) (x : Exchange) (st0 : UploadState) :
  let h := handleSingleUpload URL_protocol c singleUrl now x in
  if isValidUrl URL_protocol (sanitizeUrl singleUrl) then
    source_fetches (log h) = [sanitizeUrl singleUrl]
    /\ exists item,
         final st0 (log h) = {| items := [item]; isUploading := false |}
         /\ url item = sanitizeUrl singleUrl
         /\ well_settled item
  else log h = [] /\ final st0 (log h) = st0.
Proof.
  cbn zeta.
  destruct (handleSingleUpload_run URL_protocol c singleUrl now x st0)
    as (_ & F & S & _).
  cbn zeta in F, S. unfold single_item in F, S.
  unfold handleSingleUpload in *.
  destruct (isValidUrl URL_protocol (sanitizeUrl singleUrl)); cbn [negb] in *.
  - split; [exact S|]. eexists. split; [exact F|].
    split; [|apply item_trajectory_states].
    rewrite settle_final, item_final_url. reflexivity.
  - split; reflexivity.
Qed.

(** *** The running flag of a batch *)



(** X11. [handleFileUpload] does nothing without a file; it only logs to
    the console when the file cannot be read or holds no valid URL; and on
    a file with a valid URL it does exactly what [handleBulkUpload] does on
    the text of the file. *)
Theorem handleFileUpload_is_bulk_upload_of_the_text
  (URL_protocol : jsstring -> option jsstring) (c : CloudConfig)
  (file : option (settled jsstring)) (now : nat -> N)
  (world : nat -> Exchange) :
  log (handleFileUpload URL_protocol c file now world)
  = match file with
    | None => []
    | Some (inl _) => [console_error]
    | Some (inr text) =>
        match parseUrls URL_protocol text with
        | [] => [console_error]
        | _ :: _ => log (handleBulkUpload URL_protocol c text now world)
        end
    end
  /\ outcome (handleFileUpload URL_protocol c file now world) = inr tt.
Proof.
  destruct file as [[e|text]|]; [split; reflexivity| |split; reflexivity].
  change (handleFileUpload URL_protocol c (Some (inr text)) now world)
    with (try_catch
            (text' <- await (inr text) ;;
             match parseUrls URL_protocol text' with
             | [] => throw (ErrorObj (lit "No valid URLs found in file"))
             | _ :: _ =>
                 run_batch c world
                   (new_items now 0 (parseUrls URL_protocol text'))
             end)%async
            (fun _ => emit console_error)).
  assert (B : forall u urls,
             parseUrls URL_protocol text = u :: urls ->
             handleBulkUpload URL_protocol c text now world
             = run_batch c world (new_items now 0 (u :: urls))).
  { intros u urls E. unfold handleBulkUpload. rewrite E. reflexivity. }
  run_async.
  destruct (parseUrls URL_protocol text) as [|u urls] eqn:E; run_async;
    [split; reflexivity|].
  rewrite (B u urls eq_refl).
  destruct (run_batch_run c world (new_items now 0 (u :: urls))
              {| items := []; isUploading := false |}
              (new_items_NoDup now 0 (u :: urls))) as (_ & _ & _ & R4).
  rewrite R4. cbn [app]. split; reflexivity.
Qed.

(** *** [removeItem] *)

Lemma jseqb_false a b : jseqb a b = false <-> a <> b.
Proof.
  pose proof (jseqb_eq a b) as E. destruct (jseqb a b).
  - split; [discriminate|]. intros N. elim N. apply E. reflexivity.
  - split; [|reflexivity]. intros _ H. apply E in H. discriminate.
Qed.

Lemma filter_drops_one {A} (f : A -> bool) (key : A -> jsstring) k l :
  (forall i, f i = negb (jseqb (key i) k)) ->
  NoDup (map key l) -> In k (map key l) ->
  S (length (filter f l)) = length l.
Proof.
  intros F. induction l as [|i l IH]; cbn; intros ND I; [tauto|].
  inversion ND as [|? ? Ni ND']; subst. rewrite F.
  destruct (jseqb (key i) k) eqn:E; cbn.
  - apply jseqb_eq in E. subst k. f_equal.
    f_equal. apply forallb_filter_id. apply forallb_forall.
    intros j Hj. rewrite F. apply negb_true_iff, jseqb_false.
    intros K. apply Ni. rewrite <- K. apply in_map. exact Hj.
  - apply jseqb_false in E. destruct I as [I|I]; [congruence|].
    rewrite (IH ND' I). reflexivity.
Qed.

(** X12. [removeItem] takes away the items with the given identifier and
    nothing else: the other items stay, in their order, and the running flag
    is untouched.  Removing an identifier that is not there changes nothing,
    removing twice is removing once, and when the identifiers are distinct
    and the identifier is there, exactly one item goes. *)
Theorem removeItem_removes_by_id (itemId : jsstring) (st : UploadState) :
  let st' := apply_update (removeItem itemId) st in
  isUploading st' = isUploading st
  /\ items st' = filter (fun i => negb (jseqb (id i) itemId)) (items st)
  /\ (forall i, In i (items st') <-> In i (items st) /\ id i <> itemId)
  /\ (~ In itemId (map id (items st)) -> st' = st)
  /\ apply_update (removeItem itemId) st' = st'
  /\ (NoDup (map id (items st)) -> In itemId (map id (items st)) ->
      S (length (items st')) = length (items st)).
Proof.
  cbn zeta. cbn [removeItem apply_update items isUploading].
  split; [reflexivity|]. split; [reflexivity|]. split; [|split; [|split]].
  - intros i. rewrite filter_In, negb_true_iff, jseqb_false. tauto.
  - intros N. destruct st as [l b]. cbn. f_equal.
    apply forallb_filter_id, forallb_forall. intros i Hi.
    apply negb_true_iff, jseqb_false. intros K. apply N.
    rewrite <- K. apply in_map. exact Hi.
  - f_equal. rewrite filter_filter. apply filter_ext.
    intros i. apply andb_diag.
  - apply filter_drops_one. reflexivity.
Qed.

Lemma removeItem_removes_by_id_witness :
  S (length (items (apply_update (removeItem (lit "1700000000000-1"))
                      (with_items false
                         (new_items (fun _ => 1700000000000%N) 0
                            [lit "https://x.com/a"; lit "https://x.com/b"])))))
  = 2%nat.
Proof.
  apply (removeItem_removes_by_id (lit "1700000000000-1")
           (with_items false
              (new_items (fun _ => 1700000000000%N) 0
                 [lit "https://x.com/a"; lit "https://x.com/b"]))).
  - apply new_items_NoDup.
  - vm_compute. right. left. reflexivity.
Defined.

(** *** [getStatusCounts] *)

Lemma bulk_states_in_order
  (URL_protocol : jsstring -> option jsstring) (c : CloudConfig)
  (now : nat -> N) (world : nat -> Exchange) (st0 : UploadState)
  (bulkUrls : jsstring) :
  Forall (fun st => in_order (items st))
    (observable st0
       (log (handleBulkUpload URL_protocol c bulkUrls now world))).
Proof.
  destruct (handleBulkUpload_run URL_protocol c bulkUrls now world st0)
    as (O & _).
  cbn zeta in O. rewrite O.
  destruct (parseUrls URL_protocol bulkUrls); [constructor|].
  apply batch_states_in_order, new_items_is_pending.
Qed.


Definition with_status (k : Status.t) (l : list UploadItem)
  : list UploadItem :=
  filter (fun i => status_eqb k (status i)) l.

Lemma getStatusCounts_counts st k :
  getStatusCounts st k = length (with_status k (items st)).
Proof.
  unfold getStatusCounts, with_status.
  assert (G : forall l acc,
             fold_left (fun acc item => bump acc (status item)) l acc k
             = (acc k
                + length (filter (fun i => status_eqb k (status i)) l))%nat).
  { induction l as [|i l IH]; intros acc; cbn [fold_left filter length];
      [lia|].
    rewrite IH. unfold bump.
    destruct (status_eqb k (status i)); cbn [length]; lia. }
  rewrite G. reflexivity.
Qed.

Lemma status_eqb_eq a b : status_eqb a b = true <-> a = b.
Proof. destruct a, b; cbn; split; congruence. Qed.

Lemma in_order_one_uploading l :
  in_order l -> (length (with_status Status.uploading l) <= 1)%nat.
Proof.
  unfold with_status.
  assert (P : forall l,
             Forall is_pending l ->
             filter (fun i => status_eqb Status.uploading (status i)) l = []).
  { induction 1 as [|i l' Hi _ IH]; [reflexivity|].
    cbn [filter]. red in Hi. rewrite Hi. exact IH. }
  induction 1 as [|i l Hi _ IH|i l Hi Hl]; cbn [filter].
  - cbn. lia.
  - destruct Hi as [[-> _]|[-> _]]; exact IH.
  - rewrite (P l Hl). destruct (status_eqb _ _); cbn; lia.
Qed.

Lemma settled_none_left l :
  Forall well_settled l ->
  with_status Status.pending l = [] /\ with_status Status.uploading l = [].
Proof.
  unfold with_status.
  induction 1 as [|i l Hi _ [IH1 IH2]]; [split; reflexivity|].
  cbn [filter]. destruct Hi as [[-> _]|[-> _]]; split; assumption.
Qed.

(** X13. The four counts of [getStatusCounts] are the numbers of items in
    each status, so they add up to the number of items.  While a bulk batch
    runs at most one item is counted as uploading, and when it has ended
    none is counted as pending or uploading. *)
Theorem getStatusCounts_add_up
  (URL_protocol : jsstring -> option jsstring) (c : CloudConfig)
  (bulkUrls : jsstring) (now : nat -> N) (world : nat -> Exchange)
  (st0 st : UploadState) :
  let h := handleBulkUpload URL_protocol c bulkUrls now world in
  (forall k, getStatusCounts st k
             = length (filter (fun i => status_eqb k (status i)) (items st)))
  /\ (getStatusCounts st Status.pending + getStatusCounts st Status.uploading
      + getStatusCounts st Status.success + getStatusCounts st Status.error
      = length (items st))%nat
  /\ Forall (fun s => (getStatusCounts s Status.uploading <= 1)%nat)
       (observable st0 (log h))
  /\ match parseUrls URL_protocol bulkUrls with
     | [] => True
     | _ :: _ =>
         getStatusCounts (final st0 (log h)) Status.pending = 0%nat
         /\ getStatusCounts (final st0 (log h)) Status.uploading = 0%nat
     end.
Proof.
  cbn zeta. split; [intros k; apply getStatusCounts_counts|].
  split; [|split].
  - rewrite !getStatusCounts_counts. unfold with_status.
    induction (items st) as [|i l IH]; [reflexivity|].
    cbn [filter length]. destruct (status i); cbn [status_eqb length] in *; lia.
  - pose proof (bulk_states_in_order URL_protocol c now
                  world st0 bulkUrls) as O.
    eapply Forall_impl; [|exact O]. cbn. intros s I.
    rewrite getStatusCounts_counts. apply in_order_one_uploading. exact I.
  - destruct (handleBulkUpload_run URL_protocol c bulkUrls now world st0)
      as (_ & F & _ & _).
    cbn zeta in F.
    destruct (parseUrls URL_protocol bulkUrls) as [|u urls]; [exact I|].
    rewrite F, !getStatusCounts_counts. cbn [with_items items].
    match goal with
    | |- context [settle_each c world 0 ?b] =>
        destruct (settled_none_left _ (settle_each_settled c world b 0))
          as [-> ->]
    end.
    split; reflexivity.
Qed.

(** *** The range of [getOverallProgress] *)

Lemma rounded_mean_in_range (t : Z) (n : nat) :
  (0 <= t <= 100 * Z.of_nat (S n))%Z ->
  (0 <= Math_round (inject_Z t / inject_Z (Z.of_nat (S n))) <= 100)%Z.
Proof.
  intros [L U].
  assert (E : (inject_Z t / inject_Z (Z.of_nat (S n))
               == t # Pos.of_succ_nat n)%Q).
  { unfold Qeq, Qdiv, Qmult, Qinv, inject_Z. cbn. lia. }
  change 0%Z with (Math_round 0). change 100%Z with (Math_round 100).
  pose proof (Zpos_P_of_succ_nat n) as P.
  split; apply Math_round_monotone; rewrite E; unfold Qle; cbn; lia.
Qed.

Lemma total_progress_in_range l :
  Forall (fun i => (0 <= progress i <= 100)%Z) l ->
  (0 <= total_progress l <= 100 * Z.of_nat (length l))%Z.
Proof.
  rewrite total_progress_sum. unfold sum_Z.
  induction 1 as [|i l Hi _ IH]; [cbn; lia|].
  cbn [map fold_right length]. lia.
Qed.

Lemma settled_total l :
  Forall well_settled l ->
  total_progress l
  = (100 * Z.of_nat (length (with_status Status.success l)))%Z.
Proof.
  rewrite total_progress_sum. unfold sum_Z, with_status.
  induction 1 as [|i l Hi _ IH]; [reflexivity|].
  cbn [map fold_right filter]. rewrite IH.
  destruct Hi as [[-> ->]|(-> & -> & _)]; cbn [status_eqb length]; lia.
Qed.

(** X14. As long as every item's progress lies between 0 and 100, so does
    [getOverallProgress].  When every item is settled it is the share of
    the successful items, in percent and rounded: the failed ones count for
    nothing. *)
Theorem getOverallProgress_stays_in_range (st : UploadState) :
  (Forall (fun i => (0 <= progress i <= 100)%Z) (items st) ->
   (0 <= getOverallProgress st <= 100)%Z)
  /\ (Forall well_settled (items st) ->
      getOverallProgress st
      = match length (items st) with
        | O => 0%Z
        | S n =>
            Math_round
              (inject_Z (100 * Z.of_nat (getStatusCounts st Status.success))
               / inject_Z (Z.of_nat (S n)))
        end
      /\ (0 <= getOverallProgress st <= 100)%Z).
Proof.
  assert (R : Forall (fun i => (0 <= progress i <= 100)%Z) (items st) ->
              (0 <= getOverallProgress st <= 100)%Z).
  { intros H. pose proof (total_progress_in_range _ H) as T.
    unfold getOverallProgress.
    destruct (length (items st)) as [|n]; [lia|].
    apply rounded_mean_in_range. exact T. }
  split; [exact R|]. intros W. split.
  - unfold getOverallProgress. rewrite getStatusCounts_counts.
    rewrite (settled_total _ W). reflexivity.
  - apply R. eapply Forall_impl; [|exact W].
    intros i [[_ ->]|(_ & -> & _)]; lia.
Qed.

Lemma getOverallProgress_stays_in_range_witness :
  (0 <= getOverallProgress one_of_three_done <= 100)%Z.
Proof.
  apply (proj1 (getOverallProgress_stays_in_range one_of_three_done)).
  repeat (apply Forall_cons; [cbn; lia|]). apply Forall_nil.
Defined.

End PageFacts.

(** ** More of the server *)

Module BrokerFacts.
Import Server AsyncFacts ServerFacts.

#[local] Arguments bind : simpl never.
#[local] Arguments try_catch : simpl never.

(** *** The two sets of schemas *)

Lemma z_string_min_max_as_min m v :
  z_string_min_max 1 m v
  = match z_string_min 1 v with
    | Some s => if (length s <=? m)%nat then Some s else None
    | None => None
    end.
Proof.
  unfold z_string_min_max, z_string_min.
  destruct v as [[| | |t| |]|]; try reflexivity.
  destruct (1 <=? length t)%nat; reflexivity.
Qed.

Ltac same_steps :=
  repeat match goal with
         | |- context [match ?x with Some _ => _ | None => _ end] =>
             destruct x
         | |- context [if ?b then _ else _] => destruct b
         end.

(** X15. The schemas of the two sets of routes accept the same requests and
    read the same data from them, but for two checks that only the second
    set makes: a file name of more than 255 code units is refused, and so is
    an Azure configuration with neither an account key nor a SAS token. *)
Theorem request_schemas_refine_config_schemas (body : json) :
  (forall r,
      RequestRoutes.s3RequestSchema body = Some r
      <-> ConfigRoutes.s3ConfigSchema body = Some r
          /\ (length (fileName r) <= 255)%nat)
  /\ (forall r,
        RequestRoutes.gcpRequestSchema body = Some r
        <-> ConfigRoutes.gcpConfigSchema body = Some r
            /\ (length (fileName r) <= 255)%nat)
  /\ (forall r,
        RequestRoutes.azureRequestSchema body = Some r
        <-> ConfigRoutes.azureConfigSchema body = Some r
            /\ (length (fileName r) <= 255)%nat
            /\ RequestRoutes.has_authentication (config r) = true).
Proof.
  split; [|split]; intros r.
  - unfold RequestRoutes.s3RequestSchema, ConfigRoutes.s3ConfigSchema.
    destruct (z_object (Some body)) as [b|];
      [|split; [discriminate|intros [H _]; discriminate]].
    rewrite z_string_min_max_as_min.
    destruct (z_string_min 1 (member "fileName" b)) as [n|];
      [|split; [discriminate|intros [H _]; discriminate]].
    destruct (Nat.leb_spec (length n) 255) as [L|L].
    + same_steps; (split; [intros H|intros [H _]]);
        try discriminate; try (injection H as <-); auto.
    + same_steps; (split; [intros H|intros [H K]]);
        try discriminate. injection H as <-. cbn in K. lia.
  - unfold RequestRoutes.gcpRequestSchema, ConfigRoutes.gcpConfigSchema.
    destruct (z_object (Some body)) as [b|];
      [|split; [discriminate|intros [H _]; discriminate]].
    rewrite z_string_min_max_as_min.
    destruct (z_string_min 1 (member "fileName" b)) as [n|];
      [|split; [discriminate|intros [H _]; discriminate]].
    destruct (Nat.leb_spec (length n) 255) as [L|L].
    + same_steps; (split; [intros H|intros [H _]]);
        try discriminate; try (injection H as <-); auto.
    + same_steps; (split; [intros H|intros [H K]]);
        try discriminate. injection H as <-. cbn in K. lia.
  - unfold RequestRoutes.azureRequestSchema, ConfigRoutes.azureConfigSchema.
    destruct (z_object (Some body)) as [b|];
      [|split; [discriminate|intros [H _]; discriminate]].
    rewrite z_string_min_max_as_min.
    destruct (z_string_min 1 (member "fileName" b)) as [n|];
      [|split; [discriminate|intros [H _]; discriminate]].
    destruct (Nat.leb_spec (length n) 255) as [L|L].
    + repeat match goal with
             | |- context [match ?x with Some _ => _ | None => _ end] =>
                 destruct x
             end;
        try (split; [discriminate|intros [H _]; discriminate]).
      match goal with
      | |- context [RequestRoutes.has_authentication ?d] =>
          destruct (RequestRoutes.has_authentication d) eqn:A
      end.
      * split; [intros H; injection H as <-; cbn; auto|].
        intros (H & _). exact H.
      * split; [discriminate|]. intros (H & _ & K).
        injection H as <-. cbn in K. congruence.
    + repeat match goal with
             | |- context [match ?x with Some _ => _ | None => _ end] =>
                 destruct x
             end;
        try (split; [discriminate|intros [H _]; discriminate]).
      split; [discriminate|]. intros (H & K & _).
      injection H as <-. cbn in K. lia.
Qed.

(** *** What the routes answer *)

Definition is_some {A} (o : option A) : bool :=
  match o with Some _ => true | None => false end.

Definition answer_of (status : N) (b : Body) : HttpResponse :=
  {| http_status := status; http_body := b |}.

(** The answers of a route of [src/server/routes]: at most one SDK call and
    none for a refused request; 200 with the URL the SDK call resolved to,
    or 400 with the code of the route. *)
Definition config_answer (code : string) (accepted : bool)
  (answer : settled jsstring) (r : M sdk_call HttpResponse) : Prop :=
  (length (log r) <= 1)%nat
  /\ (accepted = false -> log r = [])
  /\ exists resp,
       outcome r = inr resp
       /\ ((accepted = true
            /\ exists u, answer = inr u /\ resp = answer_of 200 (signed u))
           \/ exists message, resp = answer_of 400 (failure code message)).

(** X16. Each route of [src/server/routes] makes at most one SDK call, and
    none when its schema refuses the request.  It answers 200 with the URL
    that call resolved to, or else 400 with the one error code of the route,
    never another status.  When the SDK call of the S3 or the GCP route
    fails with an [Error], the answer carries that error's message. *)
Theorem config_routes_answer_200_or_400
  (zod_issues : json -> jsstring) (now : Z) (answer : settled jsstring)
  (body : json) :
  config_answer "S3_PRESIGNED_URL_ERROR"
    (is_some (ConfigRoutes.s3ConfigSchema body)) answer
    (ConfigRoutes.s3Routes zod_issues now answer body)
  /\ config_answer "GCP_SIGNED_URL_ERROR"
       (is_some (ConfigRoutes.gcpConfigSchema body)) answer
       (ConfigRoutes.gcpRoutes zod_issues now answer body)
  /\ config_answer "AZURE_SAS_URL_ERROR"
       (is_some (ConfigRoutes.azureConfigSchema body)) answer
       (ConfigRoutes.azureRoutes zod_issues now answer body)
  /\ (forall message,
        answer = inl (ErrorObj message) ->
        (ConfigRoutes.s3ConfigSchema body <> None ->
         outcome (ConfigRoutes.s3Routes zod_issues now answer body)
         = inr (answer_of 400 (failure "S3_PRESIGNED_URL_ERROR" message)))
        /\ (ConfigRoutes.gcpConfigSchema body <> None ->
            outcome (ConfigRoutes.gcpRoutes zod_issues now answer body)
            = inr (answer_of 400 (failure "GCP_SIGNED_URL_ERROR" message)))).
Proof.
  unfold config_answer, answer_of.
  split; [|split; [|split]].
  - unfold ConfigRoutes.s3Routes, parse, respond.
    destruct (ConfigRoutes.s3ConfigSchema body) as [r|]; run_async.
    + destruct answer as [e|u]; run_async; cbn [length app];
        (split; [lia|]); (split; [discriminate|]);
        eexists; (split; [reflexivity|]); eauto.
    + cbn. split; [lia|]. split; [reflexivity|].
      eexists. split; [reflexivity|]. right. eauto.
  - unfold ConfigRoutes.gcpRoutes, parse, respond.
    destruct (ConfigRoutes.gcpConfigSchema body) as [r|]; run_async.
    + destruct answer as [e|u]; run_async; cbn [length app];
        (split; [lia|]); (split; [discriminate|]);
        eexists; (split; [reflexivity|]); eauto.
    + cbn. split; [lia|]. split; [reflexivity|].
      eexists. split; [reflexivity|]. right. eauto.
  - unfold ConfigRoutes.azureRoutes, parse, respond.
    destruct (ConfigRoutes.azureConfigSchema body) as [r|]; run_async.
    + destruct (when_given (AzureConfig.accountKey (config r)));
        [|destruct (when_given (AzureConfig.sasToken (config r)))];
        run_async; try (destruct answer as [e|u]; run_async);
        cbn [length app];
        (split; [lia|]); (split; [discriminate|]);
        eexists; (split; [reflexivity|]); eauto.
    + cbn. split; [lia|]. split; [reflexivity|].
      eexists. split; [reflexivity|]. right. eauto.
  - intros message ->. split; intros A.
    + unfold ConfigRoutes.s3Routes, parse, respond.
      destruct (ConfigRoutes.s3ConfigSchema body); [|congruence].
      run_async. reflexivity.
    + unfold ConfigRoutes.gcpRoutes, parse, respond.
      destruct (ConfigRoutes.gcpConfigSchema body); [|congruence].
      run_async. reflexivity.
Qed.

(** The answers of a route of [RequestRoutes]. *)
Definition request_answer (code : string) (message : jsstring)
  (accepted : bool) (r : M sdk_call HttpResponse) : Prop :=
  (length (log r) <= 1)%nat
  /\ (accepted = false ->
      log r = []
      /\ outcome r
         = inr (answer_of 400
                  (failure "VALIDATION_ERROR" (lit "Invalid request data"))))
  /\ exists resp,
       outcome r = inr resp
       /\ ((exists u, resp = answer_of 200 (signed u))
           \/ resp = answer_of 400
                       (failure "VALIDATION_ERROR"
                          (lit "Invalid request data"))
           \/ resp = answer_of 400
                       (failure "INVALID_CREDENTIALS"
                          (lit "Invalid service account key format"))
           \/ resp = answer_of 500 (failure code message)).

(** X17. Each route of [RequestRoutes] makes at most one SDK call, and none
    for a request its schema refuses, which it answers 400
    [VALIDATION_ERROR].  Its answers are 200 with a URL, 400
    [VALIDATION_ERROR], 400 [INVALID_CREDENTIALS] or 500 with the code of
    the route, each failure with a fixed message.  A GCP request whose key
    is no JSON is answered [INVALID_CREDENTIALS] before any SDK call, and an
    SDK call of the S3 route that fails with an [Error] is answered 500
    whatever the message of the error. *)
Theorem request_routes_answer_with_fixed_messages
  (zod_issues : json -> jsstring) (JSON_parse : jsstring -> option json)
  (blob_url : jsstring -> jsstring -> jsstring -> jsstring)
  (now : Z) (clock : nat -> Z) (answer : settled jsstring) (body : json) :
  request_answer "S3_ERROR" (lit "Failed to generate S3 presigned URL")
    (is_some (RequestRoutes.s3RequestSchema body))
    (RequestRoutes.s3Routes zod_issues answer body)
  /\ request_answer "GCP_ERROR" (lit "Failed to generate GCP signed URL")
       (is_some (RequestRoutes.gcpRequestSchema body))
       (RequestRoutes.gcpRoutes zod_issues JSON_parse now answer body)
  /\ request_answer "AZURE_ERROR" (lit "Failed to generate Azure SAS URL")
       (is_some (RequestRoutes.azureRequestSchema body))
       (RequestRoutes.azureRoutes zod_issues blob_url clock answer body)
  /\ (forall r,
        RequestRoutes.gcpRequestSchema body = Some r ->
        JSON_parse (GCPConfig.keyFile (config r)) = None ->
        log (RequestRoutes.gcpRoutes zod_issues JSON_parse now answer body)
        = []
        /\ outcome (RequestRoutes.gcpRoutes zod_issues JSON_parse now answer
                      body)
           = inr (answer_of 400
                    (failure "INVALID_CREDENTIALS"
                       (lit "Invalid service account key format"))))
  /\ (forall r message,
        RequestRoutes.s3RequestSchema body = Some r ->
        answer = inl (ErrorObj message) ->
        outcome (RequestRoutes.s3Routes zod_issues answer body)
        = inr (answer_of 500
                 (failure "S3_ERROR"
                    (lit "Failed to generate S3 presigned URL")))).
Proof.
  unfold request_answer, answer_of.
  split; [|split; [|split; [|split]]].
  - unfold RequestRoutes.s3Routes, RequestRoutes.on_error, parse, respond.
    destruct (RequestRoutes.s3RequestSchema body) as [r|]; run_async.
    + destruct answer as [[| |]|u]; run_async; cbn [length app];
        (split; [lia|]); (split; [discriminate|]);
        eexists; (split; [reflexivity|]); eauto 6.
    + cbn. split; [lia|]. split; [split; reflexivity|].
      eexists. split; [reflexivity|]. eauto.
  - unfold RequestRoutes.gcpRoutes, RequestRoutes.on_error, parse, respond.
    destruct (RequestRoutes.gcpRequestSchema body) as [r|]; run_async.
    + destruct (JSON_parse (GCPConfig.keyFile (config r))); run_async;
        try (destruct answer as [[| |]|u]; run_async); cbn [length app];
        (split; [lia|]); (split; [discriminate|]);
        eexists; (split; [reflexivity|]); eauto 6.
    + cbn. split; [lia|]. split; [split; reflexivity|].
      eexists. split; [reflexivity|]. eauto.
  - unfold RequestRoutes.azureRoutes, RequestRoutes.on_error, parse, respond.
    destruct (RequestRoutes.azureRequestSchema body) as [r|]; run_async.
    + destruct (when_given (AzureConfig.accountKey (config r)));
        [|destruct (when_given (AzureConfig.sasToken (config r)))];
        run_async; try (destruct answer as [[| |]|u]; run_async);
        cbn [length app];
        (split; [lia|]); (split; [discriminate|]);
        eexists; (split; [reflexivity|]); eauto 6.
    + cbn. split; [lia|]. split; [split; reflexivity|].
      eexists. split; [reflexivity|]. eauto.
  - intros r E K.
    pose proof (gcpRoutes_accepted zod_issues JSON_parse now answer body r E)
      as G.
    rewrite K in G. destruct G as [L [m O]].
    split; [exact L|].
    unfold RequestRoutes.gcpRoutes, parse, respond in *.
    rewrite E in *. run_async. rewrite K. run_async. reflexivity.
  - intros r message E ->.
    destruct (s3Routes_accepted zod_issues (inl (ErrorObj message)) body r E)
      as [_ O].
    exact O.
Qed.

(** *** The request of the client against the schemas *)

Section ClientRequest.
Import Uploader UploaderFacts BrokerRequest ItemFacts.
















End ClientRequest.

End BrokerFacts.

